(** * df-noteblockplayer: the NBS decoder and the playback scheduler

    A shallow embedding of [ParseNBS] and its readers, [nbsConverter],
    [stopSong], [playSong] and [flexSongLoader] (over the host's file
    system) of the Go package [noteblockplayer], with the properties of
    the decoder (tick and layer deltas, placeholder notes, version gating,
    length inference, truncated input) and of the scheduler (cancellation,
    sleeping, the session registry).

    Conventions.  Go's [int] is taken to be 64 bits wide; every machine
    integer is a [Z] with its wrap-around written out.  A file is the list
    of its bytes (the file is taken as opened); reading moves through the
    list.  The float32 and float64 fields ([Tempo], [Duration]) are kept as
    exact rationals.  [playSong] runs in a goroutine of its own: what it
    does is the list of its actions in order, and what the other goroutines
    do to the registry and the channels meanwhile is a function [env]
    applied where the loop polls its stop channel. *)

From Stdlib Require Import ZArith List Lia QArith.
From Stdlib Require Import Strings.Byte.
From stdpp Require Import gmap list strings sorting.

Local Open Scope Z_scope.

(** ** Machine integers *)

Module GoInt.

(** An unsigned [w]-bit value. *)
Definition wrapU (w z : Z) : Z := z mod 2 ^ w.

(** A signed [w]-bit value (two's complement). *)
Definition wrapS (w z : Z) : Z := (z + 2 ^ (w - 1)) mod 2 ^ w - 2 ^ (w - 1).

Definition uint16 : Z -> Z := wrapU 16.
Definition int16 : Z -> Z := wrapS 16.
Definition int : Z -> Z := wrapS 64.
Definition int64 : Z -> Z := wrapS 64.

Definition maxInt : Z := 2 ^ 63 - 1.
Definition minInt : Z := - 2 ^ 63.

End GoInt.

Import GoInt.

(** ** Bytes and the sequential reader *)

Definition byteZ (b : byte) : Z := Z.of_N (Byte.to_N b).

(** The byte with the given value (the value is reduced modulo 256). *)
Definition B (z : Z) : byte :=
  match Byte.of_N (Z.to_N (z mod 256)) with
  | Some b => b
  | None => x00
  end.

(** The errors [io.ReadFull] reports on a file that ends early: [io.EOF]
    when no byte was left, [io.ErrUnexpectedEOF] when some but too few. *)
Inductive error : Type :=
| EOF
| ErrUnexpectedEOF.

(** The outcome of a read: a value, an error, or (for the loops, which are
    written with fuel) not enough fuel. *)
Inductive result (A : Type) : Type :=
| Ok (a : A)
| Err (e : error)
| OutOfFuel.

Arguments Ok {A} a.
Arguments Err {A} e.
Arguments OutOfFuel {A}.

(** A computation that reads from the file: it gets the unread bytes and
    gives back a value and the bytes still unread. *)
Definition Read (A : Type) : Type := list byte -> result (A * list byte).

Definition ret {A} (a : A) : Read A := fun file => Ok (a, file).

Definition bind {A C} (m : Read A) (k : A -> Read C) : Read C :=
  fun file =>
    match m file with
    | Ok (a, file') => k a file'
    | Err e => Err e
    | OutOfFuel => OutOfFuel
    end.

Declare Scope read_scope.
Delimit Scope read_scope with read.
Notation "x <- m ;; k" := (bind m (fun x => k))
  (at level 200, m at level 99, k at level 200, only parsing) : read_scope.
Notation "m ;;; k" := (bind m (fun _ => k))
  (at level 200, k at level 200, only parsing) : read_scope.

(** [io.ReadFull(r, buf)] with [len(buf) = n]. *)
Definition ReadFull (n : nat) : Read (list byte) :=
  fun file =>
    if (length file <? n)%nat then
      match file with
      | [] => Err EOF
      | _ :: _ => Err ErrUnexpectedEOF
      end
    else Ok (take n file, drop n file).

(** [binary.LittleEndian.Uint16] and [Uint32]. *)
Definition leUint16 (b : list byte) : Z :=
  match b with
  | [b0; b1] => Z.lor (byteZ b0) (Z.shiftl (byteZ b1) 8)
  | _ => 0
  end.

Definition leUint32 (b : list byte) : Z :=
  match b with
  | [b0; b1; b2; b3] =>
      Z.lor (Z.lor (Z.lor (byteZ b0) (Z.shiftl (byteZ b1) 8))
                   (Z.shiftl (byteZ b2) 16))
            (Z.shiftl (byteZ b3) 24)
  | _ => 0
  end.

Local Open Scope read_scope.

Definition readUint8 : Read Z :=
  b <- ReadFull 1 ;; ret (match b with [b0] => byteZ b0 | _ => 0 end).

Definition readUint16 : Read Z :=
  b <- ReadFull 2 ;; ret (leUint16 b).

Definition readUint32 : Read Z :=
  b <- ReadFull 4 ;; ret (leUint32 b).

Definition readInt16 : Read Z :=
  b <- ReadFull 2 ;; ret (int16 (leUint16 b)).

(** [strings.ReplaceAll s "\x00" ""]: every NUL byte is taken out. *)
Definition removeNUL (s : list byte) : list byte :=
  filter (fun b => byteZ b <> 0) s.

(** The UTF-8 encodings of the runes for which [unicode.IsSpace] holds:
    tab, line feed, vertical tab, form feed, carriage return, space, U+0085,
    U+00A0, U+1680, U+2000 to U+200A, U+2028, U+2029, U+202F, U+205F and
    U+3000.  A string starts (ends) with a white-space rune exactly when it
    starts (ends) with one of these. *)
Definition spaceRunes : list (list Z) :=
  [[9]; [10]; [11]; [12]; [13]; [32]; [194; 133]; [194; 160]; [225; 154; 128];
   [226; 128; 128]; [226; 128; 129]; [226; 128; 130]; [226; 128; 131];
   [226; 128; 132]; [226; 128; 133]; [226; 128; 134]; [226; 128; 135];
   [226; 128; 136]; [226; 128; 137]; [226; 128; 138];
   [226; 128; 168]; [226; 128; 169]; [226; 128; 175]; [226; 129; 159];
   [227; 128; 128]].

Fixpoint startsWith (p s : list Z) : bool :=
  match p, s with
  | [], _ => true
  | x :: p', y :: s' => (x =? y) && startsWith p' s'
  | _ :: _, [] => false
  end.

(** The width of the rune of [runes] that [s] starts with, 0 when there is
    none. *)
Definition runeWidth (runes : list (list Z)) (s : list byte) : nat :=
  match List.find (fun r => startsWith r (map byteZ s)) runes with
  | Some r => length r
  | None => O
  end.

(** Drops the runes of [runes] that [s] starts with, one after the other. *)
Fixpoint trimLeft (fuel : nat) (runes : list (list Z)) (s : list byte) : list byte :=
  match fuel with
  | O => s
  | S fuel' =>
      match runeWidth runes s with
      | O => s
      | n => trimLeft fuel' runes (drop n s)
      end
  end.

(** [strings.TrimSpace]: the leading white space is removed, then the
    trailing white space of what is left. *)
Definition TrimSpace (s : list byte) : list byte :=
  let s := trimLeft (length s) spaceRunes s in
  rev (trimLeft (length s) (map (@rev Z) spaceRunes) (rev s)).

(** [cleanString]:
    [strings.ReplaceAll(strings.TrimSpace(strings.ReplaceAll(s, "\x00", "")), "\x00", "")]. *)
Definition cleanString (s : list byte) : list byte :=
  removeNUL (TrimSpace (removeNUL s)).

(** [readString]: a u32 length, then that many bytes, cleaned; the empty
    string when the length is 0. *)
Definition readString : Read (list byte) :=
  len <- readUint32 ;;
  if len =? 0 then ret []
  else strBytes <- ReadFull (Z.to_nat len) ;; ret (cleanString strBytes).

(** [for i := 0; i < n; i++ { if _, err := m; err != nil { return nil, err } }] *)
Fixpoint skip {A} (n : nat) (m : Read A) : Read unit :=
  match n with
  | O => ret tt
  | S n' => m ;;; skip n' m
  end.

(** ** The decoded data *)

Record Notes : Type := mkNotes {
  nTick : Z;
  nLayer : Z;
  nInstrument : Z;
  nKey : Z;
  nVelocity : Z;
  nPanning : Z;
  nPitch : Z
}.

Record NBSData : Type := mkNBSData {
  Version : Z;
  Length : Z;
  Layers : Z;
  Tempo : Q;
  Duration : Q;
  Notess : list Notes
}.

(** What [ParseNBS] keeps of the header. *)
Record Header : Type := mkHeader {
  hLength : Z;
  hVersion : Z;
  hLayers : Z;
  hTempoRaw : Z
}.

(** The header and meta fields, up to the start of the note blocks. *)
Definition parseHeader : Read Header :=
  len <- readUint16 ;;
  version <- readUint8 ;;
  readUint8 ;;;
  layers <- readUint16 ;;
  readUint16 ;;;
  skip 4 readString ;;;
  tempoRaw <- readUint16 ;;
  skip 3 readUint8 ;;;
  skip 5 readUint32 ;;;
  readString ;;;
  skip 2 readUint8 ;;;
  readUint16 ;;;
  ret (mkHeader len version layers tempoRaw).

(** The inner loop of the note blocks: the layers of one tick.  [layer] and
    [allNotess] are the loop's variables. *)
Fixpoint layerLoop (fuel : nat) (version tick layer : Z) (allNotess : list Notes)
  : Read (list Notes) :=
  match fuel with
  | O => fun _ => OutOfFuel
  | S fuel' =>
      jumpLayers <- readUint16 ;;
      if jumpLayers =? 0 then ret allNotess
      else
        let layer := int (layer + jumpLayers) in
        instrument <- readUint8 ;;
        key <- readUint8 ;;
        vpp <- (if 4 <=? version then
                  velocity <- readUint8 ;;
                  panning <- readUint8 ;;
                  pitch <- readInt16 ;;
                  ret (velocity, panning, pitch)
                else ret (100, 100, 0)) ;;
        let '(velocity, panning, pitch) := vpp in
        if key =? 0 then layerLoop fuel' version tick layer allNotess
        else
          let n := mkNotes tick layer instrument key velocity panning pitch in
          layerLoop fuel' version tick layer (allNotess ++ [n])
  end.

(** The outer loop of the note blocks: the ticks. *)
Fixpoint tickLoop (fuel : nat) (version tick : Z) (allNotess : list Notes)
  : Read (list Notes) :=
  match fuel with
  | O => fun _ => OutOfFuel
  | S fuel' =>
      jumpTicks <- readUint16 ;;
      if jumpTicks =? 0 then ret allNotess
      else
        let tick := int (tick + jumpTicks) in
        allNotess <- layerLoop fuel' version tick (-1) allNotess ;;
        tickLoop fuel' version tick allNotess
  end.

(** [maxTick] of the length inference: starts from the first note's tick. *)
Definition maxTick (allNotess : list Notes) : Z :=
  match allNotess with
  | [] => 0
  | n0 :: _ =>
      fold_left (fun m n => if m <? nTick n then nTick n else m)
                allNotess (nTick n0)
  end.

(** The length kept in [data.Length] after the note blocks were read. *)
Definition inferLength (declared : Z) (allNotess : list Notes) : Z :=
  if (declared =? 0) && (0 <? Z.of_nat (length allNotess))
  then uint16 (maxTick allNotess)
  else declared.

Definition tempoOfRaw (tempoRaw : Z) : Q := Qmake tempoRaw 100.

Definition finish (h : Header) (allNotess : list Notes) : NBSData :=
  let len := inferLength (hLength h) allNotess in
  let tempo := tempoOfRaw (hTempoRaw h) in
  let duration := if negb (Qle_bool tempo 0) then Qdiv (inject_Z len) tempo
                  else 0%Q in
  mkNBSData (hVersion h) len (hLayers h) tempo duration allNotess.

(** The whole of [ParseNBS] on the bytes of the opened file, with the bytes
    left unread when it returns. *)
Definition parse (fuel : nat) : Read NBSData :=
  h <- parseHeader ;;
  allNotess <- tickLoop fuel (hVersion h) (-1) [] ;;
  ret (finish h allNotess).

(** [ParseNBS]: the pair the Go function returns, the data (or nil) and the
    error (or nil). *)
Definition ParseNBS (file : list byte) : option NBSData * option error :=
  match parse (S (length file)) file with
  | Ok (data, _) => (Some data, None)
  | Err e => (None, Some e)
  | OutOfFuel => (None, None)
  end.

(** ** The song *)

Record Note : Type := mkNote {
  Tick : Z;
  Layer : Z;
  Instrument : Z;
  Key : Z;
  Velocity : Z;
  Panning : Z;
  Pitch : Z
}.

Record Song : Type := mkSong {
  sTempo : Q;
  sLength : Z;
  sNotes : list Note;
  sTitle : string;
  sAuthor : string;
  sDuration : Q
}.

(** [nbsConverter]: the decoded data as a [Song]. *)
Definition nbsConverter (nd : NBSData) : Song :=
  let notes :=
    map (fun n => mkNote (nTick n) (nLayer n) (nInstrument n) (nKey n)
                         (nVelocity n) (nPanning n) (nPitch n))
        (Notess nd) in
  mkSong (Tempo nd) (Length nd) notes "" "" (Duration nd).

(** ** The session registry and the stop channels *)

(** A listener is known by its handle (a pointer in the source); a channel
    by its identity. *)
Abbreviation EntityHandle := positive.
Abbreviation chan := positive.

(** The shared state: the registry [stopPlayer], and for every channel made
    so far whether its one slot holds a signal. *)
Record World : Type := mkWorld {
  stopPlayer : gmap EntityHandle chan;
  chans : gmap chan bool
}.

(** [select { case ch <- struct{}{}: default: }]: a send that does nothing
    when the slot is taken. *)
Definition trySend (ch : chan) (w : World) : World :=
  mkWorld (stopPlayer w) (<[ch := true]> (chans w)).

(** [select { case <-ch: ... default: }]: whether a signal was there, and
    the world with the slot emptied. *)
Definition tryRecv (ch : chan) (w : World) : bool * World :=
  match chans w !! ch with
  | Some true => (true, mkWorld (stopPlayer w) (<[ch := false]> (chans w)))
  | _ => (false, w)
  end.

(** [make(chan struct{}, 1)]: a channel no one holds yet, its slot empty. *)
Definition makeChan (w : World) : chan * World :=
  let ch := fresh (dom (chans w)) in
  (ch, mkWorld (stopPlayer w) (<[ch := false]> (chans w))).

(** The start of [playSong], under the lock: a session the listener already
    has is signalled, and a new channel takes its place in the registry. *)
Definition startSession (eh : EntityHandle) (w : World) : chan * World :=
  let w := match stopPlayer w !! eh with
           | Some ch => trySend ch w
           | None => w
           end in
  let '(stopChan, w) := makeChan w in
  (stopChan, mkWorld (<[eh := stopChan]> (stopPlayer w)) (chans w)).

(** [stopSong]. *)
Definition stopSong (eh : EntityHandle) (w : World) : bool * World :=
  match stopPlayer w !! eh with
  | Some ch =>
      let w := trySend ch w in
      (true, mkWorld (delete eh (stopPlayer w)) (chans w))
  | None => (false, w)
  end.

(** ** Playback *)

Inductive sound_Instrument : Type :=
| Piano | BassDrum | Snare | ClicksAndSticks | Bass | Flute | Bell | Guitar
| Chimes | Xylophone | IronXylophone | CowBell | Didgeridoo | Bit | Banjo
| Pling.

Definition instrumentSounds : list sound_Instrument :=
  [Piano; BassDrum; Snare; ClicksAndSticks; Bass; Flute; Bell; Guitar;
   Chimes; Xylophone; IronXylophone; CowBell; Didgeridoo; Bit; Banjo; Pling].

(** [pitchKey]. *)
Definition pitchKey (key : Z) : Z :=
  let base := 33 in
  int (key - base).

(** What the scheduler does that the outside can see, in order. *)
Inductive Action : Type :=
| Sleep (d : Z)
| Printf (note : Note) (pitch : Z)
| PlaySound (eh : EntityHandle) (inst : sound_Instrument) (pitch : Z)
| Message (eh : EntityHandle) (text : string).

(** How the tick loop was left. *)
Inductive Exit : Type :=
| Cancelled (tick : Z)
| Finished.

(** [time.Second], in nanoseconds. *)
Definition Second : Z := 1000000000.

Section Playback.

(** [float64(time.Second) / tempo] as an integer: a float64 division and
    its conversion, kept as a parameter; [time.Duration] is an int64. *)
Variable durationOfTempo : Q -> Z.

(** What the other goroutines did to the shared state since the last poll,
    as seen at the top of the iteration for [tick]. *)
Variable env : Z -> World -> World.

Variable eh : EntityHandle.
Variable song : Song.

Definition tickDuration : Z :=
  if negb (Qle_bool (sTempo song) 0) then int64 (durationOfTempo (sTempo song))
  else Second / 20.

Definition notesPerTick : gmap Z (list Note) :=
  fold_left (fun m note => <[Tick note := default [] (m !! Tick note) ++ [note]]> m)
            (sNotes song) ∅.

(** The body of [for _, note := range notes]. *)
Definition playNote (note : Note) : list Action :=
  let inst :=
    if (0 <=? Instrument note) && (Instrument note <? Z.of_nat (length instrumentSounds))
    then nth (Z.to_nat (Instrument note)) instrumentSounds Piano
    else Piano in
  let pitch := pitchKey (Key note) in
  [Printf note pitch; PlaySound eh inst pitch].

Definition playTick (tick : Z) : list Action :=
  match notesPerTick !! tick with
  | Some notes => flat_map playNote notes
  | None => []
  end.

(** [for tick := 0; tick <= song.Length; tick++ { ... }], from the state
    ([tick], [currentTick]) on. *)
Fixpoint tickIter (fuel : nat) (stopChan : chan) (tick currentTick : Z) (w : World)
  : option (Exit * list Action * World) :=
  match fuel with
  | O => None
  | S fuel' =>
      if tick <=? sLength song then
        let w := env tick w in
        let '(stopped, w) := tryRecv stopChan w in
        if stopped then Some (Cancelled tick, [], w)
        else
          let '(slept, currentTick) :=
            if currentTick <? tick
            then ([Sleep (int64 (int (tick - currentTick) * tickDuration))], tick)
            else ([], currentTick) in
          match tickIter fuel' stopChan (int (tick + 1)) currentTick w with
          | Some (ex, acts, w') => Some (ex, slept ++ playTick tick ++ acts, w')
          | None => None
          end
      else Some (Finished, [], w)
  end.

(** The deferred function: the notice, then the registry entry removed. *)
Definition finished : Action := Message eh "Song playback finished.".

Definition playSong (fuel : nat) (w : World) : option (Exit * list Action * World) :=
  let '(stopChan, w) := startSession eh w in
  match tickIter fuel stopChan 0 0 w with
  | Some (ex, acts, w) =>
      Some (ex, acts ++ [finished],
            mkWorld (delete eh (stopPlayer w)) (chans w))
  | None => None
  end.

End Playback.

(** ** Loading a song by name *)

#[global] Instance byte_eq_dec : EqDecision byte := Byte.byte_eq_dec.

(** A Go string is its bytes. *)
Definition gostring (s : string) : list byte := String.list_byte_of_string s.

(** [strings.HasSuffix] and [strings.TrimSuffix]. *)
Definition HasSuffix (s suffix : list byte) : bool :=
  (length suffix <=? length s)%nat &&
  bool_decide (drop (length s - length suffix) s = suffix).

Definition TrimSuffix (s suffix : list byte) : list byte :=
  if HasSuffix s suffix then take (length s - length suffix) s else s.

(** What loading can fail with: the file cannot be opened or read, the
    decoder's error, the JSON does not fit a [Song], or
    [fmt.Errorf("file not found")]. *)
Inductive loadError : Type :=
| OpenError
| DecodeError (e : error)
| UnmarshalError
| FileNotFound.

Section Loader.

(** [filepath.Join], of the host. *)
Variable Join : list byte -> list byte -> list byte.

(** Whether [os.Stat] succeeds on a path. *)
Variable Stat : list byte -> bool.

(** The bytes of the file at a path, when it can be opened and read. *)
Variable contents : list byte -> option (list byte).

(** [json.Unmarshal] into a [Song]. *)
Variable Unmarshal : list byte -> option Song.

(** [fileExists]. *)
Definition fileExists (path : list byte) : bool := Stat path.

(** [ReadNBS]: [ParseNBS] on the file at the path. *)
Definition ReadNBS (path : list byte) : option NBSData * option loadError :=
  match contents path with
  | None => (None, Some OpenError)
  | Some file =>
      let '(data, err) := ParseNBS file in (data, DecodeError <$> err)
  end.

(** [loadJSON]. *)
Definition loadJSON (path : list byte) : option Song * option loadError :=
  match contents path with
  | None => (None, Some OpenError)
  | Some data =>
      match Unmarshal data with
      | None => (None, Some UnmarshalError)
      | Some song => (Some song, None)
      end
  end.

(** [flexSongLoader] from the two paths on: the .nbs file when there is
    one, else the .json file, else "file not found". *)
Definition loadBase (name : list byte) : option Song * option loadError :=
  let jsonPath := Join (gostring "noteblock") (name ++ gostring ".json") in
  let nbsPath := Join (gostring "noteblock") (name ++ gostring ".nbs") in
  if fileExists nbsPath then
    match ReadNBS nbsPath with
    | (_, Some err) => (None, Some err)
    | (data, None) => (nbsConverter <$> data, None)
    end
  else if fileExists jsonPath then loadJSON jsonPath
  else (None, Some FileNotFound).

(** [flexSongLoader]. *)
Definition flexSongLoader (name : list byte) : option Song * option loadError :=
  let name := TrimSuffix name (gostring ".json") in
  let name := TrimSuffix name (gostring ".nbs") in
  loadBase name.

End Loader.

(** * Vocabulary of the properties *)

(** ** Reads *)

(** The two bytes of a 16-bit value, low byte first. *)
Definition u16le (z : Z) : list byte := [B z; B (z / 256)].

(** [extends m m']: when [m] succeeds on a file it leaves no more than it
    was given, and [m'] returns the same value on every longer file, leaving
    the added bytes unread. *)
Definition extends {A} (m m' : Read A) : Prop :=
  forall file a rest,
    m file = Ok (a, rest) ->
    (length rest <= length file)%nat /\
    forall ys, m' (file ++ ys) = Ok (a, rest ++ ys).

(** [fuelOk n m]: on a file shorter than [n], [m] does not run out of fuel. *)
Definition fuelOk {A} (n : nat) (m : Read A) : Prop :=
  forall file, (length file < n)%nat -> m file <> OutOfFuel.

(** [okPost m file Q]: if [m] succeeds on [file], [Q] holds of what it
    returns. *)
Definition okPost {A} (m : Read A) (file : list byte)
    (Q : A -> list byte -> Prop) : Prop :=
  forall a rest, m file = Ok (a, rest) -> Q a rest.

(** The bytes of the optional fields of an entry: present from version 4. *)
Definition entryTail (version : Z) (velocity panning p0 p1 : byte) : list byte :=
  if 4 <=? version then [velocity; panning; p0; p1] else [].

(** The note an entry stands for. *)
Definition entryNote (version tick layer : Z) (instrument key velocity panning p0 p1 : byte)
  : Notes :=
  if 4 <=? version
  then mkNotes tick layer (byteZ instrument) (byteZ key)
               (byteZ velocity) (byteZ panning) (int16 (leUint16 [p0; p1]))
  else mkNotes tick layer (byteZ instrument) (byteZ key) 100 100 0.

(** [allNotess] after an entry: a placeholder (key 0) adds nothing. *)
Definition emit (allNotess : list Notes) (n : Notes) : list Notes :=
  if nKey n =? 0 then allNotess else allNotess ++ [n].

(** The bytes [ParseNBS] reads of a file it decodes. *)
Definition consumed (file : list byte) : nat :=
  match parse (S (length file)) file with
  | Ok (_, rest) => (length file - length rest)%nat
  | _ => length file
  end.

(** ** Sample files *)

Module Samples.

Definition u32le (z : Z) : list byte :=
  [B z; B (z / 256); B (z / 65536); B (z / 16777216)].

(** A smallest header: declared length, version and tempo as given, 16
    vanilla instruments, one layer, every string empty, every counter 0. *)
Definition header (len version tempoRaw : Z) : list byte :=
  u16le len ++ [B version; B 16] ++ u16le 1 ++ u16le 0 ++
  u32le 0 ++ u32le 0 ++ u32le 0 ++ u32le 0 ++
  u16le tempoRaw ++
  [B 0; B 0; B 4] ++
  u32le 0 ++ u32le 0 ++ u32le 0 ++ u32le 0 ++ u32le 0 ++
  u32le 0 ++
  [B 0; B 0] ++ u16le 0.

(** Version 3, jumps of 3 and 2 ticks, one note in the first tick. *)
Definition oneNote : list byte :=
  header 0 3 1000 ++
  u16le 3 ++ (u16le 1 ++ [B 5; B 40] ++ u16le 0) ++
  u16le 2 ++ u16le 0 ++
  u16le 0.

(** Version 4, a placeholder on layer 0 and a note on layer 2 of tick 0,
    a note on tick 7. *)
Definition withPlaceholder : list byte :=
  header 8 4 500 ++
  u16le 1 ++ (u16le 1 ++ [B 0; B 0; B 100; B 100; B 0; B 0] ++
              u16le 2 ++ [B 3; B 45; B 80; B 120; B 255; B 255] ++ u16le 0) ++
  u16le 7 ++ (u16le 1 ++ [B 1; B 33; B 100; B 100; B 0; B 0] ++ u16le 0) ++
  u16le 0.

(** Declared length 0, notes at ticks 65534 and 131069. *)
Definition longSong : list byte :=
  header 0 3 1000 ++
  u16le 65535 ++ (u16le 1 ++ [B 5; B 40] ++ u16le 0) ++
  u16le 65535 ++ (u16le 3 ++ [B 1; B 7] ++ u16le 0) ++
  u16le 0.

(** Declared length 0, notes at ticks 5, 7 and 12. *)
Definition threeTicks : list byte :=
  header 0 3 1000 ++
  u16le 6 ++ (u16le 1 ++ [B 0; B 40] ++ u16le 0) ++
  u16le 2 ++ (u16le 1 ++ [B 0; B 41] ++ u16le 0) ++
  u16le 5 ++ (u16le 1 ++ [B 0; B 42] ++ u16le 0) ++
  u16le 0.

Definition dataOf (file : list byte) : NBSData :=
  match ParseNBS file with
  | (Some data, _) => data
  | _ => mkNBSData 0 0 0 0 0 []
  end.

End Samples.

(** ** Orders, ticks and actions *)

(** Earlier tick first; on the same tick, lower layer first. *)
Definition tickLayerOrder (a b : Notes) : Prop :=
  nTick a <= nTick b /\ (nTick a = nTick b -> nLayer a < nLayer b).

Definition noteOrder (a b : Note) : Prop :=
  Tick a <= Tick b /\ (Tick a = Tick b -> Layer a < Layer b).

(** What holds of [allNotess] while the layers of [tick] are read. *)
Definition upTo (tick layer : Z) (n : Notes) : Prop :=
  0 <= nTick n /\ 0 <= nLayer n /\
  (nTick n < tick \/ (nTick n = tick /\ nLayer n <= layer)).

(** A note that only has a tick, for lists of ticks. *)
Definition atTick (tick : Z) : Notes := mkNotes tick 0 0 45 100 100 0.

(** The ticks [a], [a + 1], ..., [a + n - 1]. *)
Definition ticks (a : Z) (n : nat) : list Z :=
  map (fun i => a + Z.of_nat i) (seq 0 n).

(** What one iteration of the loop does when no signal is there: every tick
    but the first is preceded by a sleep of one tick's duration. *)
Definition tickActions (durationOfTempo : Q -> Z) (eh : EntityHandle) (song : Song)
    (tick : Z) : list Action :=
  (if 0 <? tick then [Sleep (tickDuration durationOfTempo song)] else [])
  ++ playTick eh song tick.

(** ** Sample songs *)

Module PlaySamples.

(** Two notes on tick 0, one on tick 5; no tempo, so 20 ticks a second. *)
Definition song005 : Song :=
  mkSong 0 5
    [mkNote 0 0 0 40 100 100 0; mkNote 0 1 3 41 100 100 0;
     mkNote 5 0 99 45 100 100 0]
    "" "" 0.

(** The exact quotient, for the float64 division of the source. *)
Definition exactDuration (tempo : Q) : Z :=
  Qnum (Qdiv (inject_Z Second) tempo) / Zpos (Qden (Qdiv (inject_Z Second) tempo)).

(** No other goroutine touches the shared state. *)
Definition quiet : Z -> World -> World := fun _ w => w.

(** [stopSong] is called for the listener while the scheduler sleeps before
    tick [t0]. *)
Definition stopBefore (t0 : Z) (eh : EntityHandle) : Z -> World -> World :=
  fun t w => if t =? t0 then snd (stopSong eh w) else w.

Definition listener : EntityHandle := 1%positive.

Definition idle : World := mkWorld ∅ ∅.

End PlaySamples.

Definition isSleep (a : Action) : bool :=
  match a with
  | Sleep _ => true
  | _ => false
  end.

(** ** More on reads *)

(** [short m m']: when [m] fails on a file, [m'] on a longer file fails too
    or reads into the added bytes. *)
Definition short {A} (m m' : Read A) : Prop :=
  forall xs ys e,
    m xs = Err e ->
    forall a rest, m' (xs ++ ys) = Ok (a, rest) -> (length rest < length ys)%nat.

(** [consumes k m]: when [m] succeeds it has read at least [k] bytes. *)
Definition consumes {A} (k : nat) (m : Read A) : Prop :=
  forall file a rest,
    m file = Ok (a, rest) -> (length rest + k <= length file)%nat.

(** The ranges of the fields of a decoded note. *)
Definition inRange (n : Notes) : Prop :=
  0 <= nInstrument n < 256 /\ 1 <= nKey n < 256 /\
  0 <= nVelocity n < 256 /\ 0 <= nPanning n < 256 /\
  -32768 <= nPitch n < 32768.

(** The optional fields as the version has them: read, and so within their
    types, from version 4; 100, 100, 0 before. *)
Definition tailOf (version velocity panning pitch : Z) : Prop :=
  if 4 <=? version
  then 0 <= velocity < 256 /\ 0 <= panning < 256 /\ -32768 <= pitch < 32768
  else velocity = 100 /\ panning = 100 /\ pitch = 0.

(** ** A note-block stream given by its jumps *)

(** One entry of a tick: the layer jump and the bytes of the note. *)
Record Entry : Type := mkEntry {
  eJump : Z;
  eInstrument : byte;
  eKey : byte;
  eVelocity : byte;
  ePanning : byte;
  eP0 : byte;
  eP1 : byte
}.

(** The bytes of a stream: for every tick its jump and its entries, each
    entry its jump and its note bytes (the optional fields from version 4
    only), a zero jump after the entries of a tick and after the last
    tick. *)
Definition encodeEntry (version : Z) (e : Entry) : list byte :=
  u16le (eJump e) ++
  eInstrument e :: eKey e ::
  entryTail version (eVelocity e) (ePanning e) (eP0 e) (eP1 e).

Definition encodeLayers (version : Z) (entries : list Entry) : list byte :=
  flat_map (encodeEntry version) entries ++ u16le 0.

Definition encodeTick (version : Z) (b : Z * list Entry) : list byte :=
  u16le (fst b) ++ encodeLayers version (snd b).

Definition encodeTicks (version : Z) (blocks : list (Z * list Entry)) : list byte :=
  flat_map (encodeTick version) blocks ++ u16le 0.

Definition sumZ (l : list Z) : Z := fold_right Z.add 0 l.

(** The event of an entry at a tick and layer: none for a placeholder. *)
Definition eventOf (version tick layer : Z) (e : Entry) : list Notes :=
  if byteZ (eKey e) =? 0 then []
  else [entryNote version tick layer (eInstrument e) (eKey e)
                  (eVelocity e) (ePanning e) (eP0 e) (eP1 e)].

(** The events of the entries of a tick: the layer of the [m]-th entry is
    [base] plus the sum of the layer jumps up to and including its own. *)
Definition layerEvents (version tick base : Z) (entries : list Entry) : list Notes :=
  flat_map
    (fun m => match entries !! m with
              | Some e =>
                  eventOf version tick
                          (base + sumZ (map eJump (take (S m) entries))) e
              | None => []
              end)
    (seq 0 (length entries)).

(** The events of a stream: the tick of the [k]-th block is [base] plus the
    sum of the tick jumps up to and including its own, and its layers start
    from -1. *)
Definition tickEvents (version base : Z) (blocks : list (Z * list Entry)) : list Notes :=
  flat_map
    (fun k => match blocks !! k with
              | Some b =>
                  layerEvents version
                              (base + sumZ (map fst (take (S k) blocks)))
                              (-1) (snd b)
              | None => []
              end)
    (seq 0 (length blocks)).

(** Every jump is a uint16 other than 0, and the sums fit an [int]. *)
Definition wfBlock (b : Z * list Entry) : Prop :=
  0 < fst b < 65536 /\
  Forall (fun e => 0 < eJump e < 65536) (snd b) /\
  -1 + sumZ (map eJump (snd b)) <= maxInt.

Definition wfStream (blocks : list (Z * list Entry)) : Prop :=
  Forall wfBlock blocks /\ -1 + sumZ (map fst blocks) <= maxInt.

(** [m] is the greatest tick of the notes. *)
Definition isMaxTick (notes : list Notes) (m : Z) : Prop :=
  Forall (fun n => nTick n <= m) notes /\ exists n, n ∈ notes /\ nTick n = m.

(** ** More on sessions and runs *)

(** Every channel in the registry was made, and no two listeners share
    one. *)
Definition wfWorld (w : World) : Prop :=
  (forall eh ch, stopPlayer w !! eh = Some ch -> is_Some (chans w !! ch)) /\
  (forall eh1 eh2 ch,
      stopPlayer w !! eh1 = Some ch -> stopPlayer w !! eh2 = Some ch -> eh1 = eh2).

(** [playSong] is called again for the listener while the scheduler sleeps
    before tick [t0]: the start of the new call, under the lock. *)
Definition playBefore (t0 : Z) (eh : EntityHandle) : Z -> World -> World :=
  fun t w => if t =? t0 then snd (startSession eh w) else w.

(** The last tick the loop went through. *)
Definition lastTick (song : Song) (ex : Exit) : Z :=
  match ex with
  | Cancelled t => t - 1
  | Finished => sLength song
  end.

(** The time slept, in nanoseconds. *)
Definition sleepTotal (acts : list Action) : Z :=
  fold_right (fun a s => match a with Sleep d => d + s | _ => s end) 0 acts.

(** * Properties *)

(** ** Machine integers and bytes *)

Lemma int_id z : minInt <= z <= maxInt -> int z = z.
Proof.
  unfold int, wrapS, minInt, maxInt. intros Hz.
  rewrite Z.mod_small by lia. lia.
Qed.

Lemma int_range z : minInt <= int z <= maxInt.
Proof.
  unfold int, wrapS, minInt, maxInt.
  pose proof (Z.mod_pos_bound (z + 2 ^ (64 - 1)) (2 ^ 64) ltac:(lia)). lia.
Qed.

Lemma int64_id z : minInt <= z <= maxInt -> int64 z = z.
Proof. apply int_id. Qed.

Lemma int64_range z : minInt <= int64 z <= maxInt.
Proof. apply int_range. Qed.

Lemma uint16_id z : 0 <= z < 65536 -> uint16 z = z.
Proof. unfold uint16, wrapU. intros Hz. apply Z.mod_small. lia. Qed.

Lemma uint16_range z : 0 <= uint16 z < 65536.
Proof. unfold uint16, wrapU. apply Z.mod_pos_bound. lia. Qed.

Lemma byteZ_range b : 0 <= byteZ b < 256.
Proof.
  unfold byteZ. pose proof (Byte.to_N_bounded b) as Hb. lia.
Qed.

Lemma byteZ_B_mod z : byteZ (B z) = z mod 256.
Proof.
  unfold B, byteZ.
  pose proof (Z.mod_pos_bound z 256 ltac:(lia)) as Hm.
  destruct (Byte.of_N (Z.to_N (z mod 256))) as [b|] eqn:Hb.
  - apply Byte.to_of_N in Hb. rewrite Hb. lia.
  - apply Byte.of_N_None_iff in Hb. lia.
Qed.

Lemma byteZ_B z : 0 <= z < 256 -> byteZ (B z) = z.
Proof. intros Hz. rewrite byteZ_B_mod. apply Z.mod_small. exact Hz. Qed.

(** ** Little-endian values *)

Lemma lor_shiftl_add a b n :
  0 <= n -> 0 <= a < 2 ^ n -> Z.lor a (Z.shiftl b n) = a + b * 2 ^ n.
Proof.
  intros Hn Ha.
  assert (Hland : Z.land a (Z.shiftl b n) = 0).
  { apply Z.bits_inj'. intros k Hk.
    rewrite Z.land_spec, Z.bits_0.
    destruct (Z.lt_ge_cases k n) as [Hlt|Hge].
    - rewrite Z.shiftl_spec_low by lia. apply andb_false_r.
    - destruct (Z.eq_dec a 0) as [->|Hnz].
      + rewrite Z.bits_0. reflexivity.
      + rewrite (Z.bits_above_log2 a k); [reflexivity | lia |].
        assert (Z.log2 a < n) by (apply Z.log2_lt_pow2; lia). lia. }
  rewrite <- Z.lxor_lor by exact Hland.
  rewrite <- Z.add_nocarry_lxor by exact Hland.
  rewrite Z.shiftl_mul_pow2 by lia. reflexivity.
Qed.

Lemma leUint16_eq b0 b1 : leUint16 [b0; b1] = byteZ b0 + 256 * byteZ b1.
Proof.
  unfold leUint16. pose proof (byteZ_range b0).
  rewrite lor_shiftl_add by lia. lia.
Qed.

Lemma leUint16_range b0 b1 : 0 <= leUint16 [b0; b1] < 65536.
Proof.
  rewrite leUint16_eq.
  pose proof (byteZ_range b0). pose proof (byteZ_range b1). lia.
Qed.

Lemma leUint16_u16le z : 0 <= z < 65536 -> leUint16 (u16le z) = z.
Proof.
  intros Hz. unfold u16le. rewrite leUint16_eq, !byteZ_B_mod.
  Z.div_mod_to_equations. lia.
Qed.

(** ** What a read returns *)

Lemma ReadFull_Ok n file bs rest :
  ReadFull n file = Ok (bs, rest) ->
  file = bs ++ rest /\ length bs = n.
Proof.
  unfold ReadFull. destruct (length file <? n)%nat eqn:Hlt.
  - destruct file; discriminate.
  - intros [= <- <-]. apply Nat.ltb_ge in Hlt.
    split; [symmetry; apply take_drop | rewrite length_take; lia].
Qed.

Lemma ReadFull_app n bs rest :
  length bs = n -> ReadFull n (bs ++ rest) = Ok (bs, rest).
Proof.
  intros Hn. unfold ReadFull.
  assert ((length (bs ++ rest) <? n)%nat = false) as ->
    by (apply Nat.ltb_ge; rewrite length_app; lia).
  rewrite take_app_length', drop_app_length' by (symmetry; exact Hn). reflexivity.
Qed.

Lemma ReadFull_not_fuel n file : ReadFull n file <> OutOfFuel.
Proof.
  unfold ReadFull. destruct (length file <? n)%nat; [destruct file|]; discriminate.
Qed.

Lemma ReadFull_short n file :
  (length file < n)%nat -> exists e, ReadFull n file = Err e.
Proof.
  intros Hlt. unfold ReadFull. apply Nat.ltb_lt in Hlt. rewrite Hlt.
  destruct file; eauto.
Qed.

Lemma readUint16_Ok file j rest :
  readUint16 file = Ok (j, rest) ->
  exists b0 b1, file = b0 :: b1 :: rest /\ j = leUint16 [b0; b1].
Proof.
  unfold readUint16, bind, ret.
  destruct (ReadFull 2 file) as [[bs r]|e|] eqn:Hr; try discriminate.
  intros [= <- <-]. apply ReadFull_Ok in Hr as [-> Hlen].
  destruct bs as [|b0 [|b1 [|? ?]]]; try discriminate. eauto.
Qed.

Lemma readUint16_app z rest :
  0 <= z < 65536 -> readUint16 (u16le z ++ rest) = Ok (z, rest).
Proof.
  intros Hz. unfold readUint16, bind, ret.
  rewrite ReadFull_app by reflexivity. rewrite leUint16_u16le by exact Hz.
  reflexivity.
Qed.

Lemma readUint8_Ok file v rest :
  readUint8 file = Ok (v, rest) ->
  exists b0, file = b0 :: rest /\ v = byteZ b0.
Proof.
  unfold readUint8, bind, ret.
  destruct (ReadFull 1 file) as [[bs r]|e|] eqn:Hr; try discriminate.
  intros [= <- <-]. apply ReadFull_Ok in Hr as [-> Hlen].
  destruct bs as [|b0 [|? ?]]; try discriminate. eauto.
Qed.

Lemma readUint8_cons b rest : readUint8 (b :: rest) = Ok (byteZ b, rest).
Proof. reflexivity. Qed.

Lemma readInt16_cons b0 b1 rest :
  readInt16 (b0 :: b1 :: rest) = Ok (int16 (leUint16 [b0; b1]), rest).
Proof. reflexivity. Qed.

(** ** Laws of the reader *)

Section ReadLaws.
Context {A C : Type}.
Implicit Types (m : Read A) (k : A -> Read C).

Lemma extends_ret (a : A) : extends (ret a) (ret a).
Proof. intros file a' rest [= <- <-]. split; [lia | reflexivity]. Qed.

Lemma extends_bind m m' k k' :
  extends m m' -> (forall a, extends (k a) (k' a)) ->
  extends (bind m k) (bind m' k').
Proof.
  intros Hm Hk file c rest. unfold bind.
  destruct (m file) as [[a file1]|e|] eqn:Hrun; try discriminate.
  intros Hka. destruct (Hm _ _ _ Hrun) as [Hlen Hext].
  destruct (Hk a _ _ _ Hka) as [Hlen' Hext'].
  split; [lia |]. intros ys. rewrite Hext. apply Hext'.
Qed.

Lemma fuelOk_ret n (a : A) : fuelOk n (ret a).
Proof. intros file _. discriminate. Qed.

Lemma fuelOk_bind n m k :
  fuelOk n m -> extends m m -> (forall a, fuelOk n (k a)) ->
  fuelOk n (bind m k).
Proof.
  intros Hm He Hk file Hlen. unfold bind.
  destruct (m file) as [[a file1]|e|] eqn:Hrun; try discriminate.
  - apply Hk. destruct (He _ _ _ Hrun) as [Hle _]. lia.
  - exfalso. exact (Hm file Hlen Hrun).
Qed.

Lemma fuelOk_weaken n n' m : (n' <= n)%nat -> fuelOk n m -> fuelOk n' m.
Proof. intros Hle Hm file Hlen. apply Hm. lia. Qed.

Lemma okPost_ret (a : A) file Q : Q a file -> okPost (ret a) file Q.
Proof. intros HQ a' rest [= <- <-]. exact HQ. Qed.

Lemma okPost_bind m k file (Q : C -> list byte -> Prop) :
  okPost m file (fun a file1 => okPost (k a) file1 Q) ->
  okPost (bind m k) file Q.
Proof.
  intros Hm c rest. unfold bind.
  destruct (m file) as [[a file1]|e|] eqn:Hrun; try discriminate.
  intros Hka. exact (Hm a file1 Hrun c rest Hka).
Qed.

Lemma okPost_mono m file (Q Q' : A -> list byte -> Prop) :
  (forall a rest, Q a rest -> Q' a rest) ->
  okPost m file Q -> okPost m file Q'.
Proof. intros HQ Hm a rest Hrun. apply HQ, Hm, Hrun. Qed.

End ReadLaws.

Lemma extends_ReadFull n : extends (ReadFull n) (ReadFull n).
Proof.
  intros file bs rest Hrun. apply ReadFull_Ok in Hrun as [-> Hlen].
  split; [rewrite length_app; lia |].
  intros ys. rewrite <- app_assoc. apply ReadFull_app, Hlen.
Qed.

Lemma fuelOk_ReadFull n k : fuelOk n (ReadFull k).
Proof. intros file _. apply ReadFull_not_fuel. Qed.

Lemma okPost_readUint16 file (Q : Z -> list byte -> Prop) :
  (forall b0 b1 rest, file = b0 :: b1 :: rest -> Q (leUint16 [b0; b1]) rest) ->
  okPost readUint16 file Q.
Proof.
  intros HQ j rest Hrun.
  apply readUint16_Ok in Hrun as (b0 & b1 & -> & ->). apply HQ. reflexivity.
Qed.

Lemma okPost_readUint8 file (Q : Z -> list byte -> Prop) :
  (forall b0 rest, file = b0 :: rest -> Q (byteZ b0) rest) ->
  okPost readUint8 file Q.
Proof.
  intros HQ j rest Hrun.
  apply readUint8_Ok in Hrun as (b0 & -> & ->). apply HQ. reflexivity.
Qed.

(** A read that only shortens the file. *)
Lemma okPost_shorter {A} (m : Read A) file :
  extends m m -> okPost m file (fun _ rest => (length rest <= length file)%nat).
Proof. intros He a rest Hrun. apply (He _ _ _ Hrun). Qed.

Create HintDb reads discriminated.

Lemma extends_readUint8 : extends readUint8 readUint8.
Proof. apply extends_bind; [apply extends_ReadFull | intros; apply extends_ret]. Qed.

Lemma extends_readUint16 : extends readUint16 readUint16.
Proof. apply extends_bind; [apply extends_ReadFull | intros; apply extends_ret]. Qed.

Lemma extends_readUint32 : extends readUint32 readUint32.
Proof. apply extends_bind; [apply extends_ReadFull | intros; apply extends_ret]. Qed.

Lemma extends_readInt16 : extends readInt16 readInt16.
Proof. apply extends_bind; [apply extends_ReadFull | intros; apply extends_ret]. Qed.

Lemma extends_readString : extends readString readString.
Proof.
  apply extends_bind; [apply extends_readUint32 | intros len].
  destruct (len =? 0); [apply extends_ret |].
  apply extends_bind; [apply extends_ReadFull | intros; apply extends_ret].
Qed.

Lemma extends_skip {A} n (m : Read A) : extends m m -> extends (skip n m) (skip n m).
Proof.
  intros Hm. induction n as [|n IH]; simpl.
  - apply extends_ret.
  - apply extends_bind; [exact Hm | intros _; exact IH].
Qed.

#[export] Hint Resolve extends_readUint8 extends_readUint16 extends_readUint32
  extends_readInt16 extends_readString extends_ReadFull : reads.
#[export] Hint Resolve extends_ret extends_skip : reads.

Lemma fuelOk_readUint8 n : fuelOk n readUint8.
Proof.
  apply fuelOk_bind; auto using fuelOk_ReadFull, extends_ReadFull.
  intros; apply fuelOk_ret.
Qed.

Lemma fuelOk_readUint16 n : fuelOk n readUint16.
Proof.
  apply fuelOk_bind; auto using fuelOk_ReadFull, extends_ReadFull.
  intros; apply fuelOk_ret.
Qed.

Lemma fuelOk_readUint32 n : fuelOk n readUint32.
Proof.
  apply fuelOk_bind; auto using fuelOk_ReadFull, extends_ReadFull.
  intros; apply fuelOk_ret.
Qed.

Lemma fuelOk_readInt16 n : fuelOk n readInt16.
Proof.
  apply fuelOk_bind; auto using fuelOk_ReadFull, extends_ReadFull.
  intros; apply fuelOk_ret.
Qed.

Lemma fuelOk_readString n : fuelOk n readString.
Proof.
  apply fuelOk_bind; auto using fuelOk_readUint32, extends_readUint32.
  intros len. destruct (len =? 0); [apply fuelOk_ret |].
  apply fuelOk_bind; auto using fuelOk_ReadFull, extends_ReadFull.
  intros; apply fuelOk_ret.
Qed.

Lemma fuelOk_skip {A} n k (m : Read A) :
  fuelOk n m -> extends m m -> fuelOk n (skip k m).
Proof.
  intros Hm He. induction k as [|k IH]; simpl.
  - apply fuelOk_ret.
  - apply fuelOk_bind; auto.
Qed.

#[export] Hint Resolve fuelOk_readUint8 fuelOk_readUint16 fuelOk_readUint32
  fuelOk_readInt16 fuelOk_readString fuelOk_ret fuelOk_skip : reads.

(** After a 16-bit read the file is strictly shorter: one unit of fuel pays
    for it. *)
Lemma fuelOk_bind_readUint16 {C} n (k : Z -> Read C) :
  (forall j, fuelOk n (k j)) -> fuelOk (S n) (bind readUint16 k).
Proof.
  intros Hk file Hlen. unfold bind.
  destruct (readUint16 file) as [[j file1]|e|] eqn:Hrun; try discriminate.
  - apply readUint16_Ok in Hrun as (b0 & b1 & -> & _).
    apply Hk. simpl in Hlen. lia.
  - exfalso. exact (fuelOk_readUint16 (S n) file Hlen Hrun).
Qed.

(** ** The decoder reads forward, and has fuel enough *)

Ltac ext_step :=
  first
    [ apply extends_ret
    | apply extends_bind; [solve [auto with reads] | intros ?]
    | apply extends_bind; [| intros ?] ].

Lemma extends_parseHeader : extends parseHeader parseHeader.
Proof. unfold parseHeader. repeat ext_step. Qed.

(** The optional fields of an entry (velocity, panning, pitch). *)
Lemma extends_entry_tail version :
  extends
    (if 4 <=? version then
       bind readUint8 (fun velocity =>
       bind readUint8 (fun panning =>
       bind readInt16 (fun pitch => ret (velocity, panning, pitch))))
     else ret (100, 100, 0))
    (if 4 <=? version then
       bind readUint8 (fun velocity =>
       bind readUint8 (fun panning =>
       bind readInt16 (fun pitch => ret (velocity, panning, pitch))))
     else ret (100, 100, 0)).
Proof. destruct (4 <=? version); repeat ext_step. Qed.

Lemma extends_layerLoop fuel fuel' version tick layer allNotess :
  (fuel <= fuel')%nat ->
  extends (layerLoop fuel version tick layer allNotess)
          (layerLoop fuel' version tick layer allNotess).
Proof.
  revert fuel' layer allNotess.
  induction fuel as [|fuel IH]; intros fuel' layer allNotess Hle.
  - intros file a rest Hrun. discriminate.
  - destruct fuel' as [|fuel']; [lia |]. simpl.
    ext_step. destruct (a =? 0); [apply extends_ret |].
    do 2 ext_step.
    apply extends_bind; [apply extends_entry_tail | intros [[velocity panning] pitch]].
    destruct (a1 =? 0); apply IH; lia.
Qed.

Lemma extends_tickLoop fuel fuel' version tick allNotess :
  (fuel <= fuel')%nat ->
  extends (tickLoop fuel version tick allNotess)
          (tickLoop fuel' version tick allNotess).
Proof.
  revert fuel' tick allNotess.
  induction fuel as [|fuel IH]; intros fuel' tick allNotess Hle.
  - intros file a rest Hrun. discriminate.
  - destruct fuel' as [|fuel']; [lia |]. simpl.
    ext_step. destruct (a =? 0); [apply extends_ret |].
    apply extends_bind; [apply extends_layerLoop; lia | intros notes].
    apply IH. lia.
Qed.

Lemma extends_parse fuel fuel' :
  (fuel <= fuel')%nat -> extends (parse fuel) (parse fuel').
Proof.
  intros Hle. unfold parse.
  apply extends_bind; [apply extends_parseHeader | intros h].
  apply extends_bind; [apply extends_tickLoop, Hle | intros notes].
  apply extends_ret.
Qed.

Ltac fuel_step :=
  first
    [ apply fuelOk_ret
    | apply fuelOk_bind; [solve [auto with reads] | solve [auto with reads] | intros ?] ].

Lemma fuelOk_parseHeader n : fuelOk n parseHeader.
Proof. unfold parseHeader. repeat fuel_step. Qed.

Lemma fuelOk_layerLoop fuel version tick layer allNotess :
  fuelOk fuel (layerLoop fuel version tick layer allNotess).
Proof.
  revert layer allNotess.
  induction fuel as [|fuel IH]; intros layer allNotess.
  - intros file Hlen. lia.
  - simpl. apply fuelOk_bind_readUint16. intros j.
    destruct (j =? 0); [apply fuelOk_ret |].
    do 2 fuel_step.
    apply fuelOk_bind.
    + destruct (4 <=? version); repeat fuel_step.
    + apply extends_entry_tail.
    + intros [[velocity panning] pitch]. destruct (a0 =? 0); apply IH.
Qed.

Lemma fuelOk_tickLoop fuel version tick allNotess :
  fuelOk fuel (tickLoop fuel version tick allNotess).
Proof.
  revert tick allNotess.
  induction fuel as [|fuel IH]; intros tick allNotess.
  - intros file Hlen. lia.
  - simpl. apply fuelOk_bind_readUint16. intros j.
    destruct (j =? 0); [apply fuelOk_ret |].
    apply fuelOk_bind.
    + apply fuelOk_layerLoop.
    + apply extends_layerLoop. lia.
    + intros notes. apply IH.
Qed.

Lemma fuelOk_parse fuel : fuelOk fuel (parse fuel).
Proof.
  unfold parse.
  apply fuelOk_bind; [apply fuelOk_parseHeader | apply extends_parseHeader | intros h].
  apply fuelOk_bind;
    [apply fuelOk_tickLoop | apply extends_tickLoop; lia | intros notes].
  apply fuelOk_ret.
Qed.

(** [ParseNBS] always returns: the data and no error, or no data and an
    error. *)
Lemma ParseNBS_cases file :
  (exists data rest, parse (S (length file)) file = Ok (data, rest) /\
                     ParseNBS file = (Some data, None)) \/
  (exists e, parse (S (length file)) file = Err e /\
             ParseNBS file = (None, Some e)).
Proof.
  unfold ParseNBS.
  destruct (parse (S (length file)) file) as [[data rest]|e|] eqn:Hrun.
  - left. eauto.
  - right. eauto.
  - exfalso. apply (fuelOk_parse (S (length file)) file); [lia | exact Hrun].
Qed.

Lemma ParseNBS_Some file data :
  ParseNBS file = (Some data, None) ->
  exists rest, parse (S (length file)) file = Ok (data, rest).
Proof.
  destruct (ParseNBS_cases file) as [(d & rest & Hrun & ->)|(e & _ & ->)];
    intros [= <-]; eauto.
Qed.

(** ** One step of each loop *)

Lemma bind_run {A C} (m : Read A) (k : A -> Read C) file a file1 :
  m file = Ok (a, file1) -> bind m k file = k a file1.
Proof. intros Hrun. unfold bind. rewrite Hrun. reflexivity. Qed.

Lemma bind_Ok {A C} (m : Read A) (k : A -> Read C) file c rest :
  bind m k file = Ok (c, rest) ->
  exists a file1, m file = Ok (a, file1) /\ k a file1 = Ok (c, rest).
Proof.
  unfold bind. destruct (m file) as [[a file1]|e|]; try discriminate. eauto.
Qed.

Lemma nKey_entryNote version tick layer instrument key velocity panning p0 p1 :
  nKey (entryNote version tick layer instrument key velocity panning p0 p1)
  = byteZ key.
Proof. unfold entryNote. destruct (4 <=? version); reflexivity. Qed.

Lemma layerLoop_entry fuel version tick layer allNotess j
    instrument key velocity panning p0 p1 rest :
  0 < j < 65536 ->
  layerLoop (S fuel) version tick layer allNotess
    (u16le j ++ instrument :: key :: entryTail version velocity panning p0 p1 ++ rest)
  = layerLoop fuel version tick (int (layer + j))
      (emit allNotess
         (entryNote version tick (int (layer + j))
                    instrument key velocity panning p0 p1))
      rest.
Proof.
  intros Hj. cbn [layerLoop].
  rewrite (bind_run _ _ _ _ _ (readUint16_app j _ ltac:(lia))).
  assert ((j =? 0) = false) as -> by lia.
  rewrite (bind_run _ _ _ _ _ (readUint8_cons instrument _)).
  rewrite (bind_run _ _ _ _ _ (readUint8_cons key _)).
  unfold emit, entryTail. rewrite nKey_entryNote. unfold entryNote.
  destruct (4 <=? version), (byteZ key =? 0); reflexivity.
Qed.

Lemma layerLoop_end fuel version tick layer allNotess rest :
  layerLoop (S fuel) version tick layer allNotess (u16le 0 ++ rest)
  = Ok (allNotess, rest).
Proof. reflexivity. Qed.

Lemma tickLoop_step fuel version tick allNotess j rest :
  0 < j < 65536 ->
  tickLoop (S fuel) version tick allNotess (u16le j ++ rest)
  = bind (layerLoop fuel version (int (tick + j)) (-1) allNotess)
         (tickLoop fuel version (int (tick + j))) rest.
Proof.
  intros Hj. cbn [tickLoop].
  rewrite (bind_run _ _ _ _ _ (readUint16_app j _ ltac:(lia))).
  assert ((j =? 0) = false) as -> by lia. reflexivity.
Qed.

Lemma tickLoop_end fuel version tick allNotess rest :
  tickLoop (S fuel) version tick allNotess (u16le 0 ++ rest)
  = Ok (allNotess, rest).
Proof. reflexivity. Qed.

(** ** What the loops add to [allNotess] *)

Lemma okPost_entry_tail version file (Q : Z * Z * Z -> list byte -> Prop) :
  (forall vpp rest, (length rest <= length file)%nat -> Q vpp rest) ->
  okPost
    (if 4 <=? version then
       bind readUint8 (fun velocity =>
       bind readUint8 (fun panning =>
       bind readInt16 (fun pitch => ret (velocity, panning, pitch))))
     else ret (100, 100, 0)) file Q.
Proof.
  intros HQ vpp rest Hrun. apply HQ.
  apply (extends_entry_tail version _ _ _ Hrun).
Qed.

(** Whatever holds of the notes already there and of every note that is
    not a placeholder holds of all notes when the layer loop returns. *)
Lemma layerLoop_Forall (P : Notes -> Prop) fuel version tick layer allNotess file :
  (forall n, nTick n = tick -> nKey n <> 0 -> P n) ->
  Forall P allNotess ->
  okPost (layerLoop fuel version tick layer allNotess) file
         (fun notes _ => Forall P notes).
Proof.
  intros HP. revert layer allNotess file.
  induction fuel as [|fuel IH]; intros layer allNotess file Hall.
  - intros a rest Hrun. discriminate.
  - simpl. apply okPost_bind, okPost_readUint16. intros b0 b1 file1 _.
    destruct (leUint16 [b0; b1] =? 0); [apply okPost_ret, Hall |].
    apply okPost_bind, okPost_readUint8. intros instrument file2 _.
    apply okPost_bind, okPost_readUint8. intros key file3 _.
    apply okPost_bind, okPost_entry_tail.
    intros [[velocity panning] pitch] file4 _.
    destruct (byteZ key =? 0) eqn:Hkey; apply IH; [exact Hall |].
    apply Forall_app. split; [exact Hall |].
    apply Forall_singleton, HP; simpl; [reflexivity | lia].
Qed.

Lemma tickLoop_Forall (P : Notes -> Prop) fuel version tick allNotess file :
  (forall n, nKey n <> 0 -> P n) ->
  Forall P allNotess ->
  okPost (tickLoop fuel version tick allNotess) file
         (fun notes _ => Forall P notes).
Proof.
  intros HP. revert tick allNotess file.
  induction fuel as [|fuel IH]; intros tick allNotess file Hall.
  - intros a rest Hrun. discriminate.
  - simpl. apply okPost_bind, okPost_readUint16. intros b0 b1 file1 _.
    destruct (leUint16 [b0; b1] =? 0); [apply okPost_ret, Hall |].
    apply okPost_bind.
    eapply okPost_mono; [| apply (layerLoop_Forall P); [auto | exact Hall]].
    intros notes file2 Hnotes. apply IH, Hnotes.
Qed.

Lemma parse_Ok fuel file data rest :
  parse fuel file = Ok (data, rest) ->
  exists h body notes,
    parseHeader file = Ok (h, body) /\
    tickLoop fuel (hVersion h) (-1) [] body = Ok (notes, rest) /\
    data = finish h notes.
Proof.
  unfold parse. intros Hrun.
  apply bind_Ok in Hrun as (h & body & Hh & Hrun).
  apply bind_Ok in Hrun as (notes & rest' & Hn & [= <- <-]).
  eauto 6.
Qed.

(** ** Decoding a stream given by its jumps *)

Lemma flat_map_map_S {A} (f : nat -> list A) (l : list nat) :
  flat_map f (map S l) = flat_map (fun i => f (S i)) l.
Proof.
  induction l as [|i l IH]; simpl; [reflexivity | rewrite IH; reflexivity].
Qed.

Lemma flat_map_seq_S {A} (f : nat -> list A) n :
  flat_map f (seq 0 (S n)) = f O ++ flat_map (fun i => f (S i)) (seq 0 n).
Proof.
  cbn [seq flat_map]. rewrite <- seq_shift, flat_map_map_S. reflexivity.
Qed.

Lemma layerEvents_nil version tick base : layerEvents version tick base [] = [].
Proof. reflexivity. Qed.

Lemma layerEvents_cons version tick base e es :
  layerEvents version tick base (e :: es)
  = eventOf version tick (base + eJump e) e
    ++ layerEvents version tick (base + eJump e) es.
Proof.
  unfold layerEvents. cbn [length]. rewrite flat_map_seq_S. f_equal.
  - cbn. rewrite Z.add_0_r. reflexivity.
  - apply flat_map_ext. intros m. cbn.
    destruct (es !! m) as [e'|]; [| reflexivity].
    rewrite Z.add_assoc. reflexivity.
Qed.

Lemma tickEvents_cons version base b bs :
  tickEvents version base (b :: bs)
  = layerEvents version (base + fst b) (-1) (snd b)
    ++ tickEvents version (base + fst b) bs.
Proof.
  unfold tickEvents. cbn [length]. rewrite flat_map_seq_S. f_equal.
  - cbn. rewrite Z.add_0_r. reflexivity.
  - apply flat_map_ext. intros k. cbn.
    destruct (bs !! k) as [b'|]; [| reflexivity].
    rewrite Z.add_assoc. reflexivity.
Qed.

Lemma layerEvents_tick version tick base entries :
  Forall (fun n => nTick n = tick) (layerEvents version tick base entries).
Proof.
  revert base. induction entries as [|e es IH]; intros base; [constructor |].
  rewrite layerEvents_cons. apply Forall_app. split; [| apply IH].
  unfold eventOf. destruct (byteZ (eKey e) =? 0); [constructor |].
  apply Forall_singleton. unfold entryNote. destruct (4 <=? version); reflexivity.
Qed.

Lemma sumZ_jumps_nonneg (entries : list Entry) :
  Forall (fun e => 0 < eJump e < 65536) entries -> 0 <= sumZ (map eJump entries).
Proof.
  induction 1 as [|e es He _ IH]; simpl; lia.
Qed.

Lemma sumZ_ticks_nonneg (blocks : list (Z * list Entry)) :
  Forall wfBlock blocks -> 0 <= sumZ (map fst blocks).
Proof.
  induction 1 as [|b bs Hb _ IH]; simpl; [lia |].
  destruct Hb as (Hj & _). lia.
Qed.

Lemma encodeLayers_cons version e es :
  encodeLayers version (e :: es) = encodeEntry version e ++ encodeLayers version es.
Proof. unfold encodeLayers. cbn [flat_map]. rewrite app_assoc. reflexivity. Qed.

Lemma encodeTicks_cons version b bs :
  encodeTicks version (b :: bs) = encodeTick version b ++ encodeTicks version bs.
Proof. unfold encodeTicks. cbn [flat_map]. rewrite app_assoc. reflexivity. Qed.

(** The layer loop on the bytes of the entries of a tick. *)
Lemma layerLoop_encode fuel version tick base allNotess entries rest :
  Forall (fun e => 0 < eJump e < 65536) entries ->
  minInt <= base ->
  base + sumZ (map eJump entries) <= maxInt ->
  (length (encodeLayers version entries) <= fuel)%nat ->
  layerLoop fuel version tick base allNotess (encodeLayers version entries ++ rest)
  = Ok (allNotess ++ layerEvents version tick base entries, rest).
Proof.
  intros Hwf. revert fuel base allNotess.
  induction Hwf as [|e es He Hes IH]; intros fuel base allNotess Hmin Hmax Hfuel.
  - destruct fuel as [|fuel]; [simpl in Hfuel; lia |].
    rewrite layerEvents_nil, app_nil_r. apply layerLoop_end.
  - pose proof (sumZ_jumps_nonneg es Hes) as Hnn.
    cbn [map sumZ fold_right] in Hmax. fold (sumZ (map eJump es)) in Hmax.
    rewrite encodeLayers_cons in Hfuel |- *.
    unfold encodeEntry in Hfuel |- *.
    rewrite !length_app in Hfuel. cbn [length u16le] in Hfuel.
    destruct fuel as [|fuel]; [lia |].
    rewrite <- !app_assoc, <- !app_comm_cons.
    rewrite layerLoop_entry by exact He.
    rewrite int_id by lia.
    rewrite IH; [| lia | lia | lia].
    rewrite layerEvents_cons.
    unfold emit, eventOf. rewrite nKey_entryNote.
    destruct (byteZ (eKey e) =? 0).
    + reflexivity.
    + rewrite <- app_assoc. reflexivity.
Qed.

(** The tick loop on the bytes of a stream. *)
Lemma tickLoop_encode fuel version base allNotess blocks rest :
  Forall wfBlock blocks ->
  minInt <= base ->
  base + sumZ (map fst blocks) <= maxInt ->
  (length (encodeTicks version blocks) <= fuel)%nat ->
  tickLoop fuel version base allNotess (encodeTicks version blocks ++ rest)
  = Ok (allNotess ++ tickEvents version base blocks, rest).
Proof.
  intros Hwf. revert fuel base allNotess.
  induction Hwf as [|b bs Hb Hbs IH]; intros fuel base allNotess Hmin Hmax Hfuel.
  - destruct fuel as [|fuel]; [simpl in Hfuel; lia |].
    unfold tickEvents. cbn [length seq flat_map]. rewrite app_nil_r.
    apply tickLoop_end.
  - pose proof (sumZ_ticks_nonneg bs Hbs) as Hnn.
    destruct Hb as (Hj & He & Hsum).
    cbn [map sumZ fold_right] in Hmax. fold (sumZ (map fst bs)) in Hmax.
    rewrite encodeTicks_cons in Hfuel |- *.
    unfold encodeTick in Hfuel |- *.
    rewrite !length_app in Hfuel. cbn [length u16le] in Hfuel.
    destruct fuel as [|fuel]; [lia |].
    rewrite <- !app_assoc.
    rewrite tickLoop_step by exact Hj.
    rewrite int_id by lia.
    assert (Hlayers :
              layerLoop fuel version (base + fst b) (-1) allNotess
                (encodeLayers version (snd b) ++ encodeTicks version bs ++ rest)
              = Ok (allNotess ++ layerEvents version (base + fst b) (-1) (snd b),
                    encodeTicks version bs ++ rest)).
    { apply layerLoop_encode; [exact He | unfold minInt; lia | exact Hsum | lia]. }
    rewrite (bind_run _ _ _ _ _ Hlayers).
    rewrite IH; [| lia | lia | lia].
    rewrite tickEvents_cons, <- app_assoc. reflexivity.
Qed.

(** [ParseNBS] on a header followed by the bytes of a stream. *)
Lemma ParseNBS_stream hdr h blocks tail :
  parseHeader hdr = Ok (h, []) ->
  wfStream blocks ->
  ParseNBS (hdr ++ encodeTicks (hVersion h) blocks ++ tail)
  = (Some (finish h (tickEvents (hVersion h) (-1) blocks)), None).
Proof.
  intros Hh [Hwf Hsum]. unfold ParseNBS, parse.
  destruct (extends_parseHeader _ _ _ Hh) as [_ Hhdr].
  assert (Hbig : (length (encodeTicks (hVersion h) blocks)
                  <= S (length (hdr ++ encodeTicks (hVersion h) blocks ++ tail)))%nat)
    by (rewrite !length_app; lia).
  rewrite (bind_run _ _ _ _ _ (Hhdr _)), app_nil_l.
  assert (Hmin : minInt <= -1) by (unfold minInt; lia).
  rewrite (bind_run _ _ _ _ _
             (tickLoop_encode _ _ _ [] _ tail Hwf Hmin Hsum Hbig)).
  reflexivity.
Qed.

Lemma parseHeader_version hdr h body :
  parseHeader hdr = Ok (h, body) ->
  exists b0 b1 v rest,
    hdr = b0 :: b1 :: v :: rest /\ hVersion h = byteZ v.
Proof.
  unfold parseHeader. intros Hrun.
  apply bind_Ok in Hrun as (len & file1 & Hlen & Hrun).
  apply readUint16_Ok in Hlen as (b0 & b1 & -> & _).
  apply bind_Ok in Hrun as (version & file2 & Hver & Hrun).
  apply readUint8_Ok in Hver as (v & -> & ->).
  assert (Hkept : okPost
            (bind readUint8 (fun _ =>
             bind readUint16 (fun layers =>
             bind readUint16 (fun _ =>
             bind (skip 4 readString) (fun _ =>
             bind readUint16 (fun tempoRaw =>
             bind (skip 3 readUint8) (fun _ =>
             bind (skip 5 readUint32) (fun _ =>
             bind readString (fun _ =>
             bind (skip 2 readUint8) (fun _ =>
             bind readUint16 (fun _ =>
             ret (mkHeader len (byteZ v) layers tempoRaw)))))))))))) file2
            (fun h' _ => hVersion h' = byteZ v)).
  { repeat (apply okPost_bind; intros ? ? _). apply okPost_ret. reflexivity. }
  exists b0, b1, v, file2. split; [reflexivity |].
  exact (Hkept _ _ Hrun).
Qed.

(** ** Truncated input *)

(** C8: [ParseNBS] returns either the data and no error or no data and an
    error, never both and never neither; and when a file decodes, every
    file that stops short of the last byte the decoder read (the stream
    ends before a required field is read in full) gives an error and no
    data. *)
Theorem ParseNBS_truncated file data n :
  ParseNBS file = (Some data, None) ->
  (n < consumed file)%nat ->
  (exists e, ParseNBS (take n file) = (None, Some e)) /\
  (forall file', (exists data', ParseNBS file' = (Some data', None)) \/
                 (exists e, ParseNBS file' = (None, Some e))).
Proof.
  intros Hok Hn. split.
  - apply ParseNBS_Some in Hok as [rest Hrun].
    unfold consumed in Hn. rewrite Hrun in Hn.
    destruct (ParseNBS_cases (take n file))
      as [(data' & rest' & Hrun' & _)|(e & _ & He)]; [| eauto].
    exfalso.
    pose proof (extends_parse (S (length (take n file))) (S (length file))) as Hext.
    destruct (Hext ltac:(rewrite length_take; lia) _ _ _ Hrun') as [_ Hlong].
    specialize (Hlong (drop n file)). rewrite take_drop, Hrun in Hlong.
    injection Hlong as _ Hrest.
    apply (f_equal length) in Hrest.
    rewrite length_app, length_drop in Hrest. lia.
  - intros file'.
    destruct (ParseNBS_cases file') as [(d & r & _ & H)|(e & _ & H)]; eauto.
Qed.

Lemma ParseNBS_truncated_witness :
  exists e, ParseNBS (take 60 Samples.oneNote) = (None, Some e).
Proof.
  apply (ParseNBS_truncated Samples.oneNote (Samples.dataOf Samples.oneNote) 60).
  - vm_compute. reflexivity.
  - vm_compute. lia.
Defined.

(** ** Placeholder notes *)

(** C4: no note with key 0 is in what [ParseNBS] returns, nor in the song
    made of it; an entry whose key byte is 0 is read in full (with its
    optional fields) and adds no note, and the layer loop goes on with the
    next entry. *)
Theorem no_placeholder_notes file data :
  ParseNBS file = (Some data, None) ->
  Forall (fun n => nKey n <> 0) (Notess data) /\
  Forall (fun n => Key n <> 0) (sNotes (nbsConverter data)) /\
  (forall fuel version tick layer allNotess j instrument velocity panning p0 p1 rest,
      0 < j < 65536 ->
      layerLoop (S fuel) version tick layer allNotess
        (u16le j ++ instrument :: B 0 :: entryTail version velocity panning p0 p1 ++ rest)
      = layerLoop fuel version tick (int (layer + j)) allNotess rest).
Proof.
  intros Hok.
  assert (Hkeys : Forall (fun n => nKey n <> 0) (Notess data)).
  { apply ParseNBS_Some in Hok as [rest Hrun].
    apply parse_Ok in Hrun as (h & body & notes & _ & Hloop & ->).
    simpl. revert Hloop. apply tickLoop_Forall; auto. }
  split; [exact Hkeys |]. split.
  - unfold nbsConverter. simpl. apply Forall_map.
    eapply Forall_impl; [exact Hkeys |]. auto.
  - intros. rewrite layerLoop_entry by assumption.
    unfold emit. rewrite nKey_entryNote. reflexivity.
Qed.

Lemma no_placeholder_notes_witness :
  Forall (fun n => nKey n <> 0) (Notess (Samples.dataOf Samples.withPlaceholder)).
Proof.
  apply (no_placeholder_notes Samples.withPlaceholder).
  vm_compute. reflexivity.
Defined.

(** ** Version gating *)

(** C6: the version read from the header (the third byte of the file)
    decides what an entry is.  In a file of version 4 or later every entry
    carries velocity (u8), panning (u8) and pitch (i16, little-endian) after
    its key, the decoder reads them and they are the note's values; in a
    file of an earlier version an entry ends after its key, and the note
    of the same instrument and key bytes has velocity 100, panning 100 and
    pitch 0.  Either way the whole stream is read, up to the zero jump that
    ends it. *)
Theorem version_gating hdr h blocks tail :
  parseHeader hdr = Ok (h, []) ->
  wfStream blocks ->
  exists data,
    ParseNBS (hdr ++ encodeTicks (hVersion h) blocks ++ tail) = (Some data, None) /\
    Version data = hVersion h /\
    (exists b0 b1 v rest, hdr = b0 :: b1 :: v :: rest /\ hVersion h = byteZ v) /\
    Notess data = tickEvents (hVersion h) (-1) blocks /\
    (4 <= hVersion h ->
     (forall e,
         encodeEntry (hVersion h) e
         = u16le (eJump e) ++
           [eInstrument e; eKey e; eVelocity e; ePanning e; eP0 e; eP1 e]) /\
     (forall tick layer e,
         byteZ (eKey e) <> 0 ->
         eventOf (hVersion h) tick layer e
         = [mkNotes tick layer (byteZ (eInstrument e)) (byteZ (eKey e))
                    (byteZ (eVelocity e)) (byteZ (ePanning e))
                    (int16 (byteZ (eP0 e) + 256 * byteZ (eP1 e)))])) /\
    (hVersion h < 4 ->
     (forall e,
         encodeEntry (hVersion h) e
         = u16le (eJump e) ++ [eInstrument e; eKey e]) /\
     (forall tick layer e,
         byteZ (eKey e) <> 0 ->
         eventOf (hVersion h) tick layer e
         = [mkNotes tick layer (byteZ (eInstrument e)) (byteZ (eKey e))
                    100 100 0])).
Proof.
  intros Hh Hwf.
  exists (finish h (tickEvents (hVersion h) (-1) blocks)).
  split_and!.
  - apply ParseNBS_stream; assumption.
  - reflexivity.
  - apply (parseHeader_version _ _ _ Hh).
  - reflexivity.
  - intros Hv. assert ((4 <=? hVersion h) = true) as Hb by lia. split.
    + intros e. unfold encodeEntry, entryTail. rewrite Hb. reflexivity.
    + intros tick layer e Hkey. unfold eventOf, entryNote. rewrite Hb.
      assert ((byteZ (eKey e) =? 0) = false) as -> by lia.
      rewrite leUint16_eq. reflexivity.
  - intros Hv. assert ((4 <=? hVersion h) = false) as Hb by lia. split.
    + intros e. unfold encodeEntry, entryTail. rewrite Hb. reflexivity.
    + intros tick layer e Hkey. unfold eventOf, entryNote. rewrite Hb.
      assert ((byteZ (eKey e) =? 0) = false) as -> by lia.
      reflexivity.
Qed.

Lemma version_gating_witness :
  (exists data,
      ParseNBS Samples.withPlaceholder = (Some data, None) /\
      Notess data = [mkNotes 0 2 3 45 80 120 (-1); mkNotes 7 0 1 33 100 100 0]) /\
  (exists data,
      ParseNBS Samples.threeTicks = (Some data, None) /\
      Notess data = [mkNotes 5 0 0 40 100 100 0; mkNotes 7 0 0 41 100 100 0;
                     mkNotes 12 0 0 42 100 100 0]).
Proof.
  split.
  - destruct (version_gating (Samples.header 8 4 500) (mkHeader 8 4 1 500)
                [(1, [mkEntry 1 (B 0) (B 0) (B 100) (B 100) (B 0) (B 0);
                      mkEntry 2 (B 3) (B 45) (B 80) (B 120) (B 255) (B 255)]);
                 (7, [mkEntry 1 (B 1) (B 33) (B 100) (B 100) (B 0) (B 0)])]
                [])
      as (data & Hok & _ & _ & Hnotes & _).
    + vm_compute. reflexivity.
    + split; [| vm_compute; discriminate].
      repeat constructor; simpl; try lia; vm_compute; discriminate.
    + exists data. split; [exact Hok |].
      rewrite Hnotes. vm_compute. reflexivity.
  - destruct (version_gating (Samples.header 0 3 1000) (mkHeader 0 3 1 1000)
                [(6, [mkEntry 1 (B 0) (B 40) (B 9) (B 9) (B 9) (B 9)]);
                 (2, [mkEntry 1 (B 0) (B 41) (B 9) (B 9) (B 9) (B 9)]);
                 (5, [mkEntry 1 (B 0) (B 42) (B 9) (B 9) (B 9) (B 9)])]
                [])
      as (data & Hok & _ & _ & Hnotes & _).
    + vm_compute. reflexivity.
    + split; [| vm_compute; discriminate].
      repeat constructor; simpl; try lia; vm_compute; discriminate.
    + exists data. split; [exact Hok |].
      rewrite Hnotes. vm_compute. reflexivity.
Defined.

(** ** Tick and layer deltas *)

(** The layer loop only adds to [allNotess]: what it adds does not depend on
    what was there. *)
Lemma layerLoop_acc fuel version tick layer acc0 acc file notes rest :
  layerLoop fuel version tick layer acc0 file = Ok (notes, rest) ->
  layerLoop fuel version tick layer (acc ++ acc0) file = Ok (acc ++ notes, rest).
Proof.
  revert layer acc0 file.
  induction fuel as [|fuel IH]; intros layer acc0 file Hrun; [discriminate |].
  cbn [layerLoop] in *.
  apply bind_Ok in Hrun as (j & file1 & Hj & Hrun).
  rewrite (bind_run _ _ _ _ _ Hj).
  destruct (j =? 0).
  { injection Hrun as <- <-. reflexivity. }
  apply bind_Ok in Hrun as (instrument & file2 & Hi & Hrun).
  rewrite (bind_run _ _ _ _ _ Hi).
  apply bind_Ok in Hrun as (key & file3 & Hk & Hrun).
  rewrite (bind_run _ _ _ _ _ Hk).
  apply bind_Ok in Hrun as ([[velocity panning] pitch] & file4 & Ht & Hrun).
  rewrite (bind_run _ _ _ _ _ Ht).
  destruct (key =? 0).
  - apply IH, Hrun.
  - rewrite <- app_assoc. apply IH, Hrun.
Qed.

Lemma elem_of_layerEvents version tick base entries n :
  In n (layerEvents version tick base entries) <->
  exists m e,
    entries !! m = Some e /\ byteZ (eKey e) <> 0 /\
    n = entryNote version tick (base + sumZ (map eJump (take (S m) entries)))
                  (eInstrument e) (eKey e) (eVelocity e) (ePanning e)
                  (eP0 e) (eP1 e).
Proof.
  unfold layerEvents. rewrite in_flat_map. split.
  - intros (m & _ & Hin). destruct (entries !! m) as [e|] eqn:He; [| destruct Hin].
    unfold eventOf in Hin. destruct (Z.eqb_spec (byteZ (eKey e)) 0) as [Hz|Hnz];
      [destruct Hin |].
    destruct Hin as [<-|[]]. exists m, e. auto.
  - intros (m & e & He & Hnz & ->). exists m. split.
    + apply in_seq. apply lookup_lt_Some in He. lia.
    + rewrite He. unfold eventOf.
      destruct (Z.eqb_spec (byteZ (eKey e)) 0) as [Hz|_]; [contradiction |].
      left. reflexivity.
Qed.

Lemma elem_of_tickEvents version base (blocks : list (Z * list Entry)) n :
  In n (tickEvents version base blocks) <->
  exists k b m e,
    blocks !! k = Some b /\ snd b !! m = Some e /\ byteZ (eKey e) <> 0 /\
    n = entryNote version (base + sumZ (map fst (take (S k) blocks)))
                  (-1 + sumZ (map eJump (take (S m) (snd b))))
                  (eInstrument e) (eKey e) (eVelocity e) (ePanning e)
                  (eP0 e) (eP1 e).
Proof.
  unfold tickEvents. rewrite in_flat_map. split.
  - intros (k & _ & Hin). destruct (blocks !! k) as [b|] eqn:Hb; [| destruct Hin].
    apply elem_of_layerEvents in Hin as (m & e & He & Hnz & ->).
    exists k, b, m, e. auto.
  - intros (k & b & m & e & Hb & He & Hnz & ->). exists k. split.
    + apply in_seq. apply lookup_lt_Some in Hb. lia.
    + rewrite Hb. apply elem_of_layerEvents. exists m, e. auto.
Qed.

Lemma entryNote_tick_layer version tick layer i k v p p0 p1 :
  nTick (entryNote version tick layer i k v p p0 p1) = tick /\
  nLayer (entryNote version tick layer i k v p p0 p1) = layer /\
  nInstrument (entryNote version tick layer i k v p p0 p1) = byteZ i /\
  nKey (entryNote version tick layer i k v p p0 p1) = byteZ k.
Proof. unfold entryNote. destruct (4 <=? version); auto. Qed.

(** C3: tick and layer are running sums that start at -1, and a zero jump
    ends each level.  For every stream (tick jumps, and for each tick its
    layer jumps and note bytes; jumps other than 0, sums within an [int]),
    the decoder returns exactly the events of the entries that are notes,
    in order: the tick of the [k]-th block is -1 plus the tick jumps up to
    and including its own, the layer of its [m]-th entry -1 plus the layer
    jumps of that tick up to and including its own.  With tick jumps 3, 2, 0
    and, in the first tick, layer jumps 1, 0 (one entry, a note), the first
    tick gives exactly one note, at tick 2 and layer 0: it is the first
    note of the result and every other note is at tick 4. *)
Theorem tick_layer_running_sums hdr h blocks tail :
  parseHeader hdr = Ok (h, []) ->
  wfStream blocks ->
  exists data,
    ParseNBS (hdr ++ encodeTicks (hVersion h) blocks ++ tail) = (Some data, None) /\
    Notess data = tickEvents (hVersion h) (-1) blocks /\
    (forall n,
        n ∈ Notess data <->
        exists k b m e,
          blocks !! k = Some b /\ snd b !! m = Some e /\ byteZ (eKey e) <> 0 /\
          n = entryNote (hVersion h)
                        (-1 + sumZ (map fst (take (S k) blocks)))
                        (-1 + sumZ (map eJump (take (S m) (snd b))))
                        (eInstrument e) (eKey e) (eVelocity e) (ePanning e)
                        (eP0 e) (eP1 e)) /\
    (forall k b m e,
        blocks !! k = Some b -> snd b !! m = Some e -> byteZ (eKey e) <> 0 ->
        exists n,
          n ∈ Notess data /\
          nTick n = -1 + sumZ (map fst (take (S k) blocks)) /\
          nLayer n = -1 + sumZ (map eJump (take (S m) (snd b))) /\
          nInstrument n = byteZ (eInstrument e) /\
          nKey n = byteZ (eKey e)) /\
    (forall e es2,
        blocks = [(3, [e]); (2, es2)] -> eJump e = 1 -> byteZ (eKey e) <> 0 ->
        exists n,
          Notess data = n :: layerEvents (hVersion h) 4 (-1) es2 /\
          nTick n = 2 /\ nLayer n = 0 /\
          Forall (fun n' => nTick n' = 4) (layerEvents (hVersion h) 4 (-1) es2)).
Proof.
  intros Hh Hwf.
  exists (finish h (tickEvents (hVersion h) (-1) blocks)).
  split_and!.
  - apply ParseNBS_stream; assumption.
  - reflexivity.
  - intros n. cbn [Notess finish]. rewrite list_elem_of_In. apply elem_of_tickEvents.
  - intros k b m e Hb He Hnz. eexists. cbn [Notess finish]. split.
    + apply list_elem_of_In, elem_of_tickEvents. exists k, b, m, e. auto.
    + apply entryNote_tick_layer.
  - intros e es2 -> Hj Hkey. cbn [Notess finish].
    rewrite !tickEvents_cons. cbn [fst snd].
    rewrite layerEvents_cons, layerEvents_nil, Hj.
    unfold tickEvents at 1. cbn [length seq flat_map].
    unfold eventOf. assert ((byteZ (eKey e) =? 0) = false) as -> by lia.
    rewrite !app_nil_r.
    change (-1 + 3) with 2. change (-1 + 1) with 0. change (2 + 2) with 4.
    eexists. split; [reflexivity |].
    split; [apply entryNote_tick_layer |].
    split; [apply entryNote_tick_layer | apply layerEvents_tick].
Qed.

Lemma tick_layer_running_sums_witness :
  exists data,
    ParseNBS Samples.withPlaceholder = (Some data, None) /\
    map (fun n => (nTick n, nLayer n)) (Notess data) = [(0, 2); (7, 0)].
Proof.
  destruct (tick_layer_running_sums (Samples.header 8 4 500) (mkHeader 8 4 1 500)
              [(1, [mkEntry 1 (B 0) (B 0) (B 100) (B 100) (B 0) (B 0);
                    mkEntry 2 (B 3) (B 45) (B 80) (B 120) (B 255) (B 255)]);
               (7, [mkEntry 1 (B 1) (B 33) (B 100) (B 100) (B 0) (B 0)])]
              [])
    as (data & Hok & Hnotes & _).
  - vm_compute. reflexivity.
  - split; [| vm_compute; discriminate].
    repeat constructor; simpl; try lia; vm_compute; discriminate.
  - exists data. split; [exact Hok |].
    rewrite Hnotes. vm_compute. reflexivity.
Defined.

(** ** The order of the notes *)

Lemma layerLoop_order fuel version tick layer allNotess file :
  -1 <= layer -> 0 <= tick ->
  layer + 65536 * Z.of_nat (length file) <= maxInt ->
  StronglySorted tickLayerOrder allNotess ->
  Forall (upTo tick layer) allNotess ->
  okPost (layerLoop fuel version tick layer allNotess) file
    (fun notes rest =>
       StronglySorted tickLayerOrder notes /\
       Forall (fun n => 0 <= nTick n <= tick /\ 0 <= nLayer n) notes /\
       (length rest <= length file)%nat).
Proof.
  intros Hlayer Htick. revert layer Hlayer allNotess file.
  induction fuel as [|fuel IH]; intros layer Hlayer allNotess file Hfit Hsorted Hall.
  - intros a rest Hrun. discriminate.
  - cbn [layerLoop]. apply okPost_bind, okPost_readUint16.
    intros b0 b1 file1 ->.
    pose proof (leUint16_range b0 b1) as Hj.
    set (j := leUint16 [b0; b1]) in *.
    destruct (j =? 0) eqn:Hz.
    { apply okPost_ret. split; [exact Hsorted |]. split.
      - eapply Forall_impl; [exact Hall |]. unfold upTo. intros n. lia.
      - simpl. lia. }
    simpl length in Hfit.
    rewrite int_id by (unfold minInt, maxInt in *; lia).
    apply okPost_bind, okPost_readUint8. intros instrument file2 ->.
    apply okPost_bind, okPost_readUint8. intros key file3 ->.
    apply okPost_bind, okPost_entry_tail.
    intros [[velocity panning] pitch] file4 Hlen4.
    simpl length in Hfit.
    assert (Hall' : Forall (upTo tick (layer + j)) allNotess).
    { eapply Forall_impl; [exact Hall |]. unfold upTo. intros n. lia. }
    assert (Hpost : forall (notes : list Notes) (rest : list byte),
               StronglySorted tickLayerOrder notes /\
               Forall (fun n => 0 <= nTick n <= tick /\ 0 <= nLayer n) notes /\
               (length rest <= length file4)%nat ->
               StronglySorted tickLayerOrder notes /\
               Forall (fun n => 0 <= nTick n <= tick /\ 0 <= nLayer n) notes /\
               (length rest <= length (b0 :: b1 :: instrument :: key :: file3))%nat).
    { intros notes rest (? & ? & ?). simpl. repeat split; auto. lia. }
    destruct (byteZ key =? 0) eqn:Hkey;
      (eapply okPost_mono; [exact Hpost |]); apply IH; try lia; auto.
    + apply StronglySorted_app. split; [| split].
      * intros a n Ha Hn. apply list_elem_of_singleton in Hn as ->.
        rewrite Forall_forall in Hall. specialize (Hall a Ha).
        unfold upTo in Hall. unfold tickLayerOrder. simpl. lia.
      * exact Hsorted.
      * repeat constructor.
    + apply Forall_app. split; [exact Hall' |].
      apply Forall_singleton. unfold upTo. simpl. lia.
Qed.

Lemma tickLoop_order fuel version tick allNotess file :
  -1 <= tick ->
  tick + 65536 * Z.of_nat (length file) <= maxInt ->
  StronglySorted tickLayerOrder allNotess ->
  Forall (fun n => 0 <= nTick n <= tick /\ 0 <= nLayer n) allNotess ->
  okPost (tickLoop fuel version tick allNotess) file
    (fun notes _ =>
       StronglySorted tickLayerOrder notes /\
       Forall (fun n => 0 <= nTick n /\ 0 <= nLayer n) notes).
Proof.
  revert tick allNotess file.
  induction fuel as [|fuel IH]; intros tick allNotess file Htick Hfit Hsorted Hall.
  - intros a rest Hrun. discriminate.
  - cbn [tickLoop]. apply okPost_bind, okPost_readUint16.
    intros b0 b1 file1 ->.
    pose proof (leUint16_range b0 b1) as Hj.
    set (j := leUint16 [b0; b1]) in *.
    destruct (j =? 0) eqn:Hz.
    { apply okPost_ret. split; [exact Hsorted |].
      eapply Forall_impl; [exact Hall |]. intros n. simpl. lia. }
    simpl length in Hfit.
    rewrite int_id by (unfold minInt, maxInt in *; lia).
    apply okPost_bind.
    eapply okPost_mono;
      [| apply layerLoop_order; [lia | lia | lia | exact Hsorted |]].
    + intros notes file2 (Hs & Ha & Hlen). apply IH; auto; lia.
    + eapply Forall_impl; [exact Hall |]. unfold upTo. intros n. simpl. lia.
Qed.

Lemma parseHeader_shorter file h body :
  parseHeader file = Ok (h, body) -> (length body <= length file)%nat.
Proof. intros Hrun. apply (extends_parseHeader _ _ _ Hrun). Qed.

(** C9: in what [ParseNBS] returns for a file of at most 2^47 bytes (so that
    no running sum leaves the 64-bit range), and in the song made of it,
    a note never comes before a note of an earlier tick, notes of one tick
    come in strictly increasing layer, and every tick and layer is at least
    0. *)
Theorem notes_ordered file data :
  Z.of_nat (length file) <= 2 ^ 47 ->
  ParseNBS file = (Some data, None) ->
  StronglySorted noteOrder (sNotes (nbsConverter data)) /\
  Forall (fun n => 0 <= Tick n /\ 0 <= Layer n) (sNotes (nbsConverter data)) /\
  StronglySorted tickLayerOrder (Notess data) /\
  Forall (fun n => 0 <= nTick n /\ 0 <= nLayer n) (Notess data).
Proof.
  intros Hsize Hok.
  assert (Hdec : StronglySorted tickLayerOrder (Notess data) /\
                 Forall (fun n => 0 <= nTick n /\ 0 <= nLayer n) (Notess data)).
  { apply ParseNBS_Some in Hok as [rest Hrun].
    apply parse_Ok in Hrun as (h & body & notes & Hh & Hloop & ->).
    apply parseHeader_shorter in Hh. simpl Notess.
    revert Hloop. apply tickLoop_order.
    - lia.
    - unfold maxInt. lia.
    - constructor.
    - constructor. }
  destruct Hdec as [Hs Ha]. repeat split; auto.
  - unfold nbsConverter. simpl.
    eapply (StronglySorted_fmap _ tickLayerOrder noteOrder); [| exact Hs].
    intros a b Hab. exact Hab.
  - unfold nbsConverter. simpl. apply Forall_map.
    eapply Forall_impl; [exact Ha |]. auto.
Qed.

Lemma notes_ordered_witness :
  StronglySorted tickLayerOrder (Notess (Samples.dataOf Samples.withPlaceholder)).
Proof.
  apply (notes_ordered Samples.withPlaceholder).
  - vm_compute. discriminate.
  - vm_compute. reflexivity.
Defined.

(** ** Length inference *)

Lemma maxTick_fold (notes : list Notes) m0 :
  let m := fold_left (fun m n => if m <? nTick n then nTick n else m) notes m0 in
  m0 <= m /\
  Forall (fun n => nTick n <= m) notes /\
  (m = m0 \/ exists n, n ∈ notes /\ nTick n = m).
Proof.
  revert m0. induction notes as [|n notes IH]; intros m0; simpl.
  - split; [lia |]. split; [constructor | left; reflexivity].
  - specialize (IH (if m0 <? nTick n then nTick n else m0)).
    simpl in IH. destruct IH as (Hle & Hall & Hin).
    destruct (m0 <? nTick n) eqn:Hlt.
    + split; [lia |]. split.
      * constructor; [lia | exact Hall].
      * right. destruct Hin as [-> | (n' & Hn' & Heq)].
        -- exists n. split; [left | reflexivity].
        -- exists n'. split; [right; exact Hn' | exact Heq].
    + split; [lia |]. split.
      * constructor; [lia | exact Hall].
      * destruct Hin as [-> | (n' & Hn' & Heq)]; [left; reflexivity |].
        right. exists n'. split; [right; exact Hn' | exact Heq].
Qed.

(** [maxTick] is the greatest tick of a list that has a note. *)
Lemma maxTick_spec (notes : list Notes) :
  notes <> [] ->
  Forall (fun n => nTick n <= maxTick notes) notes /\
  exists n, n ∈ notes /\ nTick n = maxTick notes.
Proof.
  destruct notes as [|n0 notes]; [congruence |]. intros _.
  unfold maxTick.
  destruct (maxTick_fold (n0 :: notes) (nTick n0)) as (Hle & Hall & Hin).
  split; [exact Hall |].
  destruct Hin as [Heq | Hin]; [| exact Hin].
  exists n0. split; [left | symmetry; exact Heq].
Qed.

Lemma ParseNBS_header file h body data :
  parseHeader file = Ok (h, body) ->
  ParseNBS file = (Some data, None) ->
  Length data = inferLength (hLength h) (Notess data).
Proof.
  intros Hh Hok. apply ParseNBS_Some in Hok as [rest Hrun].
  apply parse_Ok in Hrun as (h' & body' & notes & Hh' & _ & ->).
  rewrite Hh in Hh'. injection Hh' as <- <-. reflexivity.
Qed.

Lemma inferLength_zero (notes : list Notes) :
  notes <> [] -> inferLength 0 notes = uint16 (maxTick notes).
Proof.
  intros Hne. unfold inferLength. destruct notes; [congruence | reflexivity].
Qed.

(** C5, as the decoder has it: a declared length other than 0 is kept; a
    declared length of 0 with at least one note becomes the greatest tick of
    the notes reduced modulo 2^16, which is that greatest tick whenever it
    is below 65536 (ticks 5, 12, 7 give 12); the song has the same length. *)
Theorem length_inference file h body data :
  parseHeader file = Ok (h, body) ->
  ParseNBS file = (Some data, None) ->
  sLength (nbsConverter data) = Length data /\
  (hLength h <> 0 -> Length data = hLength h) /\
  (hLength h = 0 -> Notess data <> [] ->
   Length data = maxTick (Notess data) mod 2 ^ 16 /\
   Forall (fun n => nTick n <= maxTick (Notess data)) (Notess data) /\
   (exists n, n ∈ Notess data /\ nTick n = maxTick (Notess data)) /\
   (0 <= maxTick (Notess data) < 65536 -> Length data = maxTick (Notess data))) /\
  inferLength 0 [atTick 5; atTick 12; atTick 7] = 12.
Proof.
  intros Hh Hok. pose proof (ParseNBS_header _ _ _ _ Hh Hok) as Hlen.
  split; [reflexivity |]. split; [| split; [| reflexivity]].
  - intros Hnz. rewrite Hlen. unfold inferLength.
    assert ((hLength h =? 0) = false) as -> by lia. reflexivity.
  - intros Hz Hne. rewrite Hz, (inferLength_zero _ Hne) in Hlen.
    destruct (maxTick_spec _ Hne) as [Hall Hin].
    split; [exact Hlen |]. split; [exact Hall |]. split; [exact Hin |].
    intros Hsmall. rewrite Hlen. apply uint16_id, Hsmall.
Qed.

Lemma length_inference_witness :
  Length (Samples.dataOf Samples.threeTicks)
  = maxTick (Notess (Samples.dataOf Samples.threeTicks)) /\
  Length (Samples.dataOf Samples.threeTicks) = 12.
Proof.
  split; [| vm_compute; reflexivity].
  assert (Hh : parseHeader Samples.threeTicks
               = Ok (mkHeader 0 3 1 1000, drop 57 Samples.threeTicks))
    by (vm_compute; reflexivity).
  assert (Hok : ParseNBS Samples.threeTicks
                = (Some (Samples.dataOf Samples.threeTicks), None))
    by (vm_compute; reflexivity).
  destruct (length_inference _ _ _ _ Hh Hok) as (_ & _ & Hzero & _).
  apply Hzero.
  - reflexivity.
  - vm_compute. discriminate.
  - vm_compute. split; [discriminate | reflexivity].
Defined.

(** C5 as stated fails: the declared length is 0, there are notes, and the
    length is not their greatest tick. *)
Lemma length_inference_counterexample :
  exists h body data,
    parseHeader Samples.longSong = Ok (h, body) /\
    hLength h = 0 /\
    ParseNBS Samples.longSong = (Some data, None) /\
    map nTick (Notess data) = [65534; 131069] /\
    maxTick (Notess data) = 131069 /\
    Length data = 65533 /\
    sLength (nbsConverter data) = 65533.
Proof.
  exists (mkHeader 0 3 1 1000), (drop 57 Samples.longSong),
         (Samples.dataOf Samples.longSong).
  vm_compute. repeat split; reflexivity.
Qed.

(** C10: when the declared length is 0 and there are notes, the length kept
    is the greatest tick of the notes reduced modulo 2^16 (the cast to
    uint16), so it is strictly smaller than that greatest tick once it
    exceeds 65535; and there is a file for which this happens. *)
Theorem inferred_length_wraps file h body data :
  parseHeader file = Ok (h, body) ->
  hLength h = 0 ->
  ParseNBS file = (Some data, None) ->
  Notess data <> [] ->
  (exists m,
      isMaxTick (Notess data) m /\
      Length data = m mod 2 ^ 16 /\
      sLength (nbsConverter data) = m mod 2 ^ 16 /\
      (65535 < m -> sLength (nbsConverter data) < m)) /\
  (exists file' data' m',
      ParseNBS file' = (Some data', None) /\
      isMaxTick (Notess data') m' /\
      65535 < m' /\
      sLength (nbsConverter data') < m').
Proof.
  intros Hh Hz Hok Hne.
  pose proof (ParseNBS_header _ _ _ _ Hh Hok) as Hlen.
  rewrite Hz, (inferLength_zero _ Hne) in Hlen.
  split.
  - exists (maxTick (Notess data)). split_and!.
    + exact (maxTick_spec _ Hne).
    + exact Hlen.
    + exact Hlen.
    + intros Hbig. simpl. rewrite Hlen.
      pose proof (uint16_range (maxTick (Notess data))). lia.
  - exists Samples.longSong, (Samples.dataOf Samples.longSong), 131069.
    split_and!.
    + vm_compute. reflexivity.
    + replace 131069 with (maxTick (Notess (Samples.dataOf Samples.longSong)))
        by (vm_compute; reflexivity).
      apply maxTick_spec. vm_compute. discriminate.
    + reflexivity.
    + vm_compute. reflexivity.
Qed.

Lemma inferred_length_wraps_witness :
  exists m,
    isMaxTick (Notess (Samples.dataOf Samples.longSong)) m /\
    sLength (nbsConverter (Samples.dataOf Samples.longSong)) = m mod 2 ^ 16.
Proof.
  assert (Hh : parseHeader Samples.longSong
               = Ok (mkHeader 0 3 1 1000, drop 57 Samples.longSong))
    by (vm_compute; reflexivity).
  assert (Hok : ParseNBS Samples.longSong
                = (Some (Samples.dataOf Samples.longSong), None))
    by (vm_compute; reflexivity).
  assert (Hne : Notess (Samples.dataOf Samples.longSong) <> [])
    by (vm_compute; discriminate).
  destruct (inferred_length_wraps _ _ _ _ Hh eq_refl Hok Hne)
    as ((m & Hmax & _ & Hlen & _) & _).
  exists m. split; [exact Hmax | exact Hlen].
Defined.

(** ** Stopping *)

Lemma stopSong_registry eh w :
  stopPlayer (snd (stopSong eh w)) = delete eh (stopPlayer w).
Proof.
  unfold stopSong. destruct (stopPlayer w !! eh) as [ch|] eqn:Hreg; simpl.
  - reflexivity.
  - symmetry. apply delete_id, Hreg.
Qed.

Lemma startSession_registered eh w :
  stopPlayer (snd (startSession eh w)) !! eh = Some (fst (startSession eh w)).
Proof.
  unfold startSession. destruct (stopPlayer w !! eh); simpl; apply lookup_insert_eq.
Qed.

(** [stopSong] is a total function to a boolean and the new state; the
    boolean says whether the listener had an entry in the registry; after
    the call the listener has none, so a second call gives false; for a
    listener that never started (no entry) it gives false; after
    [playSong] registered a session the first call gives true and the next
    false.  When it gives true the session's channel holds the signal, and
    no other listener's entry is changed. *)
Theorem stopSong_reports eh w :
  (fst (stopSong eh w) = true <-> is_Some (stopPlayer w !! eh)) /\
  (fst (stopSong eh w) = false <-> stopPlayer w !! eh = None) /\
  stopPlayer (snd (stopSong eh w)) !! eh = None /\
  fst (stopSong eh (snd (stopSong eh w))) = false /\
  fst (stopSong eh (mkWorld ∅ (chans w))) = false /\
  fst (stopSong eh (snd (startSession eh w))) = true /\
  fst (stopSong eh (snd (stopSong eh (snd (startSession eh w))))) = false /\
  (forall ch, stopPlayer w !! eh = Some ch ->
              chans (snd (stopSong eh w)) !! ch = Some true) /\
  (forall eh', eh' <> eh ->
               stopPlayer (snd (stopSong eh w)) !! eh' = stopPlayer w !! eh').
Proof.
  assert (Hgone : forall w0, stopPlayer (snd (stopSong eh w0)) !! eh = None).
  { intros w0. rewrite stopSong_registry. apply lookup_delete_eq. }
  assert (Hfalse : forall w0, stopPlayer w0 !! eh = None ->
                              fst (stopSong eh w0) = false).
  { intros w0 Hnone. unfold stopSong. rewrite Hnone. reflexivity. }
  split_and!.
  - unfold stopSong. destruct (stopPlayer w !! eh) as [ch|]; simpl.
    + split; eauto.
    + split; [discriminate | intros [ch Hch]; discriminate].
  - unfold stopSong. destruct (stopPlayer w !! eh) as [ch|]; simpl.
    + split; discriminate.
    + split; reflexivity.
  - apply Hgone.
  - apply Hfalse, Hgone.
  - apply Hfalse. simpl. apply lookup_empty.
  - unfold stopSong. rewrite startSession_registered. reflexivity.
  - apply Hfalse, Hgone.
  - intros ch Hch. unfold stopSong. rewrite Hch. simpl. apply lookup_insert_eq.
  - intros eh' Hne. rewrite stopSong_registry. apply lookup_delete_ne. congruence.
Qed.

(** C7, at the input where the code fails it: [playSong] is called again
    for the listener while the first run sleeps before tick 2.  The first
    run is left at the poll of tick 2 and its deferred function deletes the
    listener's entry, by then the second session's.  The second session's
    channel is there with no signal, yet [stopSong] returns false, sends
    nothing and changes nothing; polled in that state, the second session's
    loop goes through every tick. *)
Lemma stopSong_misses_second_session :
  exists acts w',
    playSong PlaySamples.exactDuration (playBefore 2 PlaySamples.listener)
             PlaySamples.listener PlaySamples.song005 3 PlaySamples.idle
    = Some (Cancelled 2, acts, w') /\
    fst (startSession PlaySamples.listener
           (snd (startSession PlaySamples.listener PlaySamples.idle)))
    = 2%positive /\
    chans w' !! 2%positive = Some false /\
    stopSong PlaySamples.listener w' = (false, w') /\
    exists acts2 w2,
      tickIter PlaySamples.exactDuration PlaySamples.quiet PlaySamples.listener
               PlaySamples.song005 7 2%positive 0 0
               (snd (stopSong PlaySamples.listener w'))
      = Some (Finished, acts2, w2).
Proof.
  eexists _, _. split; [vm_compute; reflexivity |]. split; [vm_compute; reflexivity |].
  split; [vm_compute; reflexivity |].
  split; [vm_compute; reflexivity |].
  eexists _, _. vm_compute. reflexivity.
Qed.

(** ** The tick loop *)

Lemma ticks_S a n : ticks a (S n) = a :: ticks (a + 1) n.
Proof.
  unfold ticks. simpl. rewrite Z.add_0_r. f_equal.
  rewrite <- seq_shift, map_map. apply map_ext. intros i. lia.
Qed.

Section PlaybackFacts.

Variable durationOfTempo : Q -> Z.
Variable env : Z -> World -> World.
Variable eh : EntityHandle.
Variable song : Song.

#[local] Abbreviation tickDuration' := (tickDuration durationOfTempo song).
#[local] Abbreviation playTick' := (playTick eh song).
#[local] Abbreviation tickIter' := (tickIter durationOfTempo env eh song).
#[local] Abbreviation playSong' := (playSong durationOfTempo env eh song).
#[local] Abbreviation tickActions' := (tickActions durationOfTempo eh song).

Lemma tickDuration_range : minInt <= tickDuration' <= maxInt.
Proof.
  unfold tickDuration. destruct (negb (Qle_bool (sTempo song) 0)).
  - apply int64_range.
  - unfold minInt, maxInt, Second. split; [discriminate | discriminate].
Qed.

(** The signal is there at the top of the iteration: the loop is left at
    once, nothing more is done. *)
Lemma tickIter_cancel fuel stopChan tick currentTick w :
  tick <= sLength song ->
  chans (env tick w) !! stopChan = Some true ->
  tickIter' (S fuel) stopChan tick currentTick w
  = Some (Cancelled tick, [], snd (tryRecv stopChan (env tick w))).
Proof.
  intros Hle Hsig. cbn [tickIter].
  assert ((tick <=? sLength song) = true) as -> by lia.
  unfold tryRecv. rewrite Hsig. reflexivity.
Qed.

(** No signal at the top of the iteration: sleep (but for tick 0), play the
    tick's notes, go on with the next tick. *)
Lemma tickIter_go fuel stopChan tick w :
  0 <= tick <= sLength song -> sLength song < maxInt ->
  chans (env tick w) !! stopChan <> Some true ->
  tickIter' (S fuel) stopChan tick (Z.max 0 (tick - 1)) w
  = match tickIter' fuel stopChan (tick + 1) (Z.max 0 (tick + 1 - 1)) (env tick w) with
    | Some (ex, acts, w') => Some (ex, tickActions' tick ++ acts, w')
    | None => None
    end.
Proof.
  intros Htick Hlen Hsig. cbn [tickIter].
  assert ((tick <=? sLength song) = true) as -> by lia.
  assert (tryRecv stopChan (env tick w) = (false, env tick w)) as ->.
  { unfold tryRecv. destruct (chans (env tick w) !! stopChan) as [[|]|];
      [congruence | reflexivity | reflexivity]. }
  rewrite (int_id (tick + 1)) by (unfold minInt, maxInt in *; lia).
  unfold tickActions.
  destruct (Z.max 0 (tick - 1) <? tick) eqn:Hlt.
  - assert ((0 <? tick) = true) as -> by lia.
    replace (tick - Z.max 0 (tick - 1)) with 1 by lia.
    replace (int 1) with 1 by reflexivity.
    rewrite Z.mul_1_l, (int64_id _ tickDuration_range).
    replace (Z.max 0 (tick + 1 - 1)) with tick by lia.
    destruct (tickIter' fuel stopChan (tick + 1) tick (env tick w))
      as [[[ex acts] w']|]; [| reflexivity].
    rewrite <- app_assoc. reflexivity.
  - assert ((0 <? tick) = false) as -> by lia.
    replace (Z.max 0 (tick + 1 - 1)) with (Z.max 0 (tick - 1)) by lia.
    reflexivity.
Qed.

(** How the loop is left, and what it did until then. *)
Lemma tickIter_spec fuel stopChan tick w ex acts w' :
  0 <= tick -> sLength song < maxInt ->
  tickIter' fuel stopChan tick (Z.max 0 (tick - 1)) w = Some (ex, acts, w') ->
  match ex with
  | Cancelled t =>
      tick <= t <= sLength song /\
      acts = flat_map tickActions' (ticks tick (Z.to_nat (t - tick)))
  | Finished =>
      acts = flat_map tickActions' (ticks tick (Z.to_nat (sLength song + 1 - tick)))
  end.
Proof.
  intros Htick Hlen. revert tick w acts Htick.
  induction fuel as [|fuel IH]; intros tick w acts Htick Hrun; [discriminate |].
  destruct (Z.leb_spec tick (sLength song)) as [Hle|Hgt].
  - destruct (decide (chans (env tick w) !! stopChan = Some true)) as [Hsig|Hsig].
    + rewrite tickIter_cancel in Hrun by assumption.
      injection Hrun as <- <- <-.
      split; [lia |]. rewrite Z.sub_diag. reflexivity.
    + rewrite tickIter_go in Hrun by (auto; lia).
      destruct (tickIter' fuel stopChan (tick + 1) (Z.max 0 (tick + 1 - 1)) (env tick w))
        as [[[ex1 acts1] w1]|] eqn:Hnext; [| discriminate].
      injection Hrun as <- <- <-.
      apply IH in Hnext; [| lia].
      destruct ex1 as [t|].
      * destruct Hnext as [Ht ->]. split; [lia |].
        replace (Z.to_nat (t - tick)) with (S (Z.to_nat (t - (tick + 1)))) by lia.
        rewrite ticks_S. reflexivity.
      * subst acts1.
        replace (Z.to_nat (sLength song + 1 - tick))
          with (S (Z.to_nat (sLength song + 1 - (tick + 1)))) by lia.
        rewrite ticks_S. reflexivity.
  - cbn [tickIter] in Hrun.
    assert ((tick <=? sLength song) = false) as Hb by lia.
    rewrite Hb in Hrun. injection Hrun as <- <- <-.
    replace (Z.to_nat (sLength song + 1 - tick)) with O by lia. reflexivity.
Qed.

(** With a length below the greatest [int] the loop is left after at most
    [sLength song + 1] iterations. *)
Lemma tickIter_returns fuel stopChan tick w :
  0 <= tick -> sLength song < maxInt ->
  (Z.to_nat (sLength song + 1 - tick) < fuel)%nat ->
  exists r, tickIter' fuel stopChan tick (Z.max 0 (tick - 1)) w = Some r.
Proof.
  intros Htick Hlen. revert tick w Htick.
  induction fuel as [|fuel IH]; intros tick w Htick Hfuel; [lia |].
  destruct (Z.leb_spec tick (sLength song)) as [Hle|Hgt].
  - destruct (decide (chans (env tick w) !! stopChan = Some true)) as [Hsig|Hsig].
    + rewrite tickIter_cancel by assumption. eauto.
    + rewrite tickIter_go by (auto; lia).
      destruct (IH (tick + 1) (env tick w) ltac:(lia) ltac:(lia)) as [[[ex acts] w'] ->].
      eauto.
  - cbn [tickIter].
    assert ((tick <=? sLength song) = false) as -> by lia. eauto.
Qed.


End PlaybackFacts.

(** ** Cancellation and the notice *)




(** ** Sleeping *)

(** C2, as the scheduler has it: the loop visits every tick from 0 to the
    length, so the gap since the last tick visited is always 1: a run that
    is not cancelled plays the notes of tick 0 without sleeping, and before
    every later tick, silent or not, sleeps once for one tick's duration.
    For notes at ticks 0, 0, 5 (length 5): both notes of tick 0 are played
    before any sleep, then five sleeps of one tick's duration each come
    before the third note. *)
Theorem playSong_sleeps durationOfTempo env eh song fuel w acts w' :
  sLength song < maxInt ->
  playSong durationOfTempo env eh song fuel w = Some (Finished, acts, w') ->
  acts = flat_map (fun tick =>
                     (if 0 <? tick
                      then [Sleep (tickDuration durationOfTempo song)]
                      else []) ++ playTick eh song tick)
                  (ticks 0 (Z.to_nat (sLength song + 1)))
         ++ [finished eh] /\
  (forall n1 n2 n3 tempo title author duration,
      Tick n1 = 0 -> Tick n2 = 0 -> Tick n3 = 5 ->
      song = mkSong tempo 5 [n1; n2; n3] title author duration ->
      acts = playNote eh n1 ++ playNote eh n2 ++
             repeat (Sleep (tickDuration durationOfTempo song)) 5 ++
             playNote eh n3 ++ [finished eh]).
Proof.
  intros Hlen Hrun.
  assert (Hacts : acts = flat_map (tickActions durationOfTempo eh song)
                                  (ticks 0 (Z.to_nat (sLength song + 1)))
                         ++ [finished eh]).
  { revert Hrun. unfold playSong.
    destruct (startSession eh w) as [stopChan w1].
    destruct (tickIter durationOfTempo env eh song fuel stopChan 0 0 w1)
      as [[[ex1 acts1] w2]|] eqn:Hloop; [| discriminate].
    intros [= -> <- <-].
    apply (tickIter_spec durationOfTempo env eh song fuel stopChan 0) in Hloop;
      [| lia | exact Hlen].
    rewrite Z.sub_0_r in Hloop. rewrite Hloop. reflexivity. }
  split; [exact Hacts |].
  intros [t1 l1 i1 k1 v1 p1 f1] [t2 l2 i2 k2 v2 p2 f2] [t3 l3 i3 k3 v3 p3 f3]
         tempo title author duration Ht1 Ht2 Ht3 Hsong.
  simpl in Ht1, Ht2, Ht3. subst t1 t2 t3. rewrite Hacts. subst song.
  reflexivity.
Qed.

Lemma playSong_sleeps_witness :
  exists acts w',
    playSong PlaySamples.exactDuration PlaySamples.quiet
             PlaySamples.listener PlaySamples.song005 10 PlaySamples.idle
    = Some (Finished, acts, w') /\
    acts = flat_map (fun tick =>
                       (if 0 <? tick
                        then [Sleep (tickDuration PlaySamples.exactDuration
                                                  PlaySamples.song005)]
                        else []) ++
                       playTick PlaySamples.listener PlaySamples.song005 tick)
                    (ticks 0 6)
           ++ [finished PlaySamples.listener].
Proof.
  eexists _, _. split; [vm_compute; reflexivity |].
  apply (playSong_sleeps PlaySamples.exactDuration PlaySamples.quiet
           PlaySamples.listener PlaySamples.song005 10 PlaySamples.idle
           _ (mkWorld ∅ {[1%positive := false]})).
  - vm_compute. reflexivity.
  - vm_compute. reflexivity.
Defined.

(** C2 as stated fails: for notes at ticks 0, 0, 5 the third note comes
    after five sleeps of one tick (50 ms) each, not after one sleep of five
    ticks (250 ms). *)
Lemma playSong_sleeps_counterexample :
  exists acts w',
    playSong PlaySamples.exactDuration PlaySamples.quiet
             PlaySamples.listener PlaySamples.song005 10 PlaySamples.idle
    = Some (Finished, acts, w') /\
    filter (fun a => isSleep a = true) acts = repeat (Sleep 50000000) 5 /\
    (Sleep (5 * 50000000) ∉ acts) /\
    tickDuration PlaySamples.exactDuration PlaySamples.song005 = 50000000.
Proof.
  eexists _, _. split; [vm_compute; reflexivity |].
  split; [vm_compute; reflexivity |]. split; [| reflexivity].
  intros Hin. apply list_elem_of_In in Hin. simpl in Hin.
  repeat (destruct Hin as [Hin|Hin]; [discriminate Hin |]). exact Hin.
Qed.

(** * More properties of the decoder *)

(** ** Trailing bytes *)

(** What follows the note blocks in the file (the layer names, the custom
    instruments) is never read: bytes added after a file that decodes
    change neither the data nor the number of bytes read. *)
Theorem ParseNBS_ignores_trailing file data ys :
  ParseNBS file = (Some data, None) ->
  ParseNBS (file ++ ys) = (Some data, None) /\
  consumed (file ++ ys) = consumed file.
Proof.
  intros Hok. apply ParseNBS_Some in Hok as [rest Hrun].
  pose proof (extends_parse (S (length file)) (S (length (file ++ ys)))) as Hext.
  destruct (Hext ltac:(rewrite length_app; lia) _ _ _ Hrun) as [Hlen Hlong].
  specialize (Hlong ys).
  unfold ParseNBS, consumed. rewrite Hlong, Hrun. split; [reflexivity |].
  rewrite !length_app. lia.
Qed.

Lemma ParseNBS_ignores_trailing_witness :
  ParseNBS (Samples.oneNote ++ [B 7; B 7; B 7])
  = (Some (Samples.dataOf Samples.oneNote), None).
Proof.
  apply (ParseNBS_ignores_trailing Samples.oneNote).
  vm_compute. reflexivity.
Defined.

(** ** How much a read takes *)

Lemma consumes_ret {A} (a : A) : consumes 0 (ret a).
Proof. intros file a' rest [= <- <-]. lia. Qed.

Lemma consumes_bind {A C} k1 k2 k (m : Read A) (f : A -> Read C) :
  consumes k1 m -> (forall a, consumes k2 (f a)) -> (k <= k1 + k2)%nat ->
  consumes k (bind m f).
Proof.
  intros Hm Hf Hk file c rest Hrun.
  apply bind_Ok in Hrun as (a & file1 & Hrun1 & Hrun2).
  apply Hm in Hrun1. apply Hf in Hrun2. lia.
Qed.

Lemma consumes_weaken {A} k k' (m : Read A) :
  (k' <= k)%nat -> consumes k m -> consumes k' m.
Proof. intros Hle Hm file a rest Hrun. apply Hm in Hrun. lia. Qed.

Lemma extends_consumes {A} (m : Read A) : extends m m -> consumes 0 m.
Proof. intros He file a rest Hrun. destruct (He _ _ _ Hrun) as [Hlen _]. lia. Qed.

Lemma consumes_ReadFull n : consumes n (ReadFull n).
Proof.
  intros file bs rest Hrun. apply ReadFull_Ok in Hrun as [-> Hlen].
  rewrite length_app. lia.
Qed.

Lemma consumes_readUint8 : consumes 1 readUint8.
Proof.
  apply (consumes_bind 1 0); [apply consumes_ReadFull | intros; apply consumes_ret | lia].
Qed.

Lemma consumes_readUint16 : consumes 2 readUint16.
Proof.
  apply (consumes_bind 2 0); [apply consumes_ReadFull | intros; apply consumes_ret | lia].
Qed.

Lemma consumes_readUint32 : consumes 4 readUint32.
Proof.
  apply (consumes_bind 4 0); [apply consumes_ReadFull | intros; apply consumes_ret | lia].
Qed.

Lemma consumes_readString : consumes 4 readString.
Proof.
  apply (consumes_bind 4 0); [apply consumes_readUint32 | | lia].
  intros len. destruct (len =? 0); [apply consumes_ret |].
  apply extends_consumes, extends_bind; [apply extends_ReadFull |].
  intros; apply extends_ret.
Qed.

Lemma consumes_skip {A} n k (m : Read A) :
  consumes k m -> consumes (n * k) (skip n m).
Proof.
  intros Hm. induction n as [|n IH]; simpl.
  - apply consumes_ret.
  - apply (consumes_bind k (n * k)); [exact Hm | intros _; exact IH | lia].
Qed.

Ltac consumes_step k1 :=
  match goal with
  | |- consumes ?k _ =>
      apply (consumes_bind k1 (k - k1)); [| intros ? | simpl; lia]; simpl Nat.sub
  end.

(** The header takes at least 57 bytes. *)
Lemma consumes_parseHeader : consumes 57 parseHeader.
Proof.
  unfold parseHeader.
  consumes_step 2%nat; [apply consumes_readUint16 |].
  consumes_step 1%nat; [apply consumes_readUint8 |].
  consumes_step 1%nat; [apply consumes_readUint8 |].
  consumes_step 2%nat; [apply consumes_readUint16 |].
  consumes_step 2%nat; [apply consumes_readUint16 |].
  consumes_step 16%nat; [apply (consumes_skip 4 4), consumes_readString |].
  consumes_step 2%nat; [apply consumes_readUint16 |].
  consumes_step 3%nat; [apply (consumes_skip 3 1), consumes_readUint8 |].
  consumes_step 20%nat; [apply (consumes_skip 5 4), consumes_readUint32 |].
  consumes_step 4%nat; [apply consumes_readString |].
  consumes_step 2%nat; [apply (consumes_skip 2 1), consumes_readUint8 |].
  consumes_step 2%nat; [apply consumes_readUint16 |].
  apply consumes_ret.
Qed.

Lemma consumes_tickLoop fuel version tick allNotess :
  consumes 2 (tickLoop fuel version tick allNotess).
Proof.
  destruct fuel as [|fuel]; [intros file a rest Hrun; discriminate |].
  cbn [tickLoop].
  apply (consumes_bind 2 0); [apply consumes_readUint16 | | lia].
  intros j. destruct (j =? 0); [apply consumes_ret |].
  apply (consumes_bind 0 0); [| | lia].
  - apply extends_consumes, extends_layerLoop. lia.
  - intros notes. apply extends_consumes, extends_tickLoop. lia.
Qed.

Lemma consumes_parse fuel : consumes 59 (parse fuel).
Proof.
  unfold parse.
  apply (consumes_bind 57 2); [apply consumes_parseHeader | | lia].
  intros h.
  apply (consumes_bind 2 0); [apply consumes_tickLoop | | lia].
  intros notes. apply consumes_ret.
Qed.

(** ** The smallest file *)

(** A file of fewer than 59 bytes (the 57 of the smallest header and the
    zero jump that ends the note blocks) never decodes: [ParseNBS] returns
    an error and no data; on the empty file the error is [io.EOF].  Every
    file that decodes had at least 59 bytes read. *)
Theorem ParseNBS_smallest file :
  (length file < 59)%nat ->
  (exists e, ParseNBS file = (None, Some e)) /\
  ParseNBS [] = (None, Some EOF) /\
  (forall file' data, ParseNBS file' = (Some data, None) ->
                      (59 <= consumed file' <= length file')%nat) /\
  (exists file' data, length file' = 59%nat /\
                      ParseNBS file' = (Some data, None)).
Proof.
  intros Hshort.
  assert (Hmin : forall file' data, ParseNBS file' = (Some data, None) ->
                                    (59 <= consumed file' <= length file')%nat).
  { intros file' data Hok. apply ParseNBS_Some in Hok as [rest Hrun].
    unfold consumed. rewrite Hrun. apply consumes_parse in Hrun. lia. }
  split; [| split; [reflexivity | split; [exact Hmin |]]].
  - destruct (ParseNBS_cases file) as [(d & r & _ & Hok)|(e & _ & He)]; [| eauto].
    apply Hmin in Hok. lia.
  - exists (Samples.header 0 3 1000 ++ u16le 0),
           (Samples.dataOf (Samples.header 0 3 1000 ++ u16le 0)).
    split; vm_compute; reflexivity.
Qed.

Lemma ParseNBS_smallest_witness :
  exists e, ParseNBS (take 58 (Samples.header 0 3 1000 ++ u16le 0)) = (None, Some e).
Proof.
  apply (ParseNBS_smallest (take 58 (Samples.header 0 3 1000 ++ u16le 0))).
  vm_compute. lia.
Defined.

(** ** A file cut after the last byte read *)

Lemma short_ret {A} (a : A) : short (ret a) (ret a).
Proof. intros xs ys e Hrun. discriminate. Qed.

Lemma short_bind {A C} (m m' : Read A) (k k' : A -> Read C) :
  short m m' -> extends m m' ->
  (forall a, consumes 0 (k' a)) ->
  (forall a, short (k a) (k' a)) ->
  short (bind m k) (bind m' k').
Proof.
  intros Hs He Hc Hk xs ys e Hrun c rest Hlong.
  unfold bind in Hrun.
  destruct (m xs) as [[a1 r1]|e1|] eqn:Hm; [| | discriminate].
  - destruct (He _ _ _ Hm) as [_ Hext].
    rewrite (bind_run _ _ _ _ _ (Hext ys)) in Hlong.
    exact (Hk a1 r1 ys e Hrun c rest Hlong).
  - apply bind_Ok in Hlong as (a2 & r2 & Hm' & Hk').
    pose proof (Hs xs ys e1 Hm a2 r2 Hm') as Hlt.
    apply Hc in Hk'. lia.
Qed.

Lemma short_ReadFull n : short (ReadFull n) (ReadFull n).
Proof.
  intros xs ys e Hrun bs rest Hlong.
  assert (length xs < n)%nat as Hlt.
  { unfold ReadFull in Hrun. destruct (length xs <? n)%nat eqn:Hb.
    - apply Nat.ltb_lt, Hb.
    - discriminate. }
  apply ReadFull_Ok in Hlong as [Heq Hlen].
  apply (f_equal length) in Heq. rewrite !length_app in Heq. lia.
Qed.

Lemma short_readUint8 : short readUint8 readUint8.
Proof.
  apply short_bind; auto using short_ReadFull, extends_ReadFull;
    intros; [apply consumes_ret | apply short_ret].
Qed.

Lemma short_readUint16 : short readUint16 readUint16.
Proof.
  apply short_bind; auto using short_ReadFull, extends_ReadFull;
    intros; [apply consumes_ret | apply short_ret].
Qed.

Lemma short_readUint32 : short readUint32 readUint32.
Proof.
  apply short_bind; auto using short_ReadFull, extends_ReadFull;
    intros; [apply consumes_ret | apply short_ret].
Qed.

Lemma short_readInt16 : short readInt16 readInt16.
Proof.
  apply short_bind; auto using short_ReadFull, extends_ReadFull;
    intros; [apply consumes_ret | apply short_ret].
Qed.

Lemma short_readString : short readString readString.
Proof.
  apply short_bind; auto using short_readUint32, extends_readUint32.
  - intros len. destruct (len =? 0); [apply consumes_ret |].
    apply extends_consumes, extends_bind; [apply extends_ReadFull |].
    intros; apply extends_ret.
  - intros len. destruct (len =? 0); [apply short_ret |].
    apply short_bind; auto using short_ReadFull, extends_ReadFull;
      intros; [apply consumes_ret | apply short_ret].
Qed.

Lemma short_skip {A} n (m : Read A) :
  short m m -> extends m m -> short (skip n m) (skip n m).
Proof.
  intros Hs He. induction n as [|n IH]; simpl.
  - apply short_ret.
  - apply short_bind; auto.
    intros _. apply extends_consumes, extends_skip, He.
Qed.

#[export] Hint Resolve short_readUint8 short_readUint16 short_readUint32
  short_readInt16 short_readString short_ret short_skip : reads.

Ltac short_step :=
  first
    [ apply short_ret
    | apply short_bind;
      [ solve [auto with reads]
      | solve [auto with reads]
      | intros ?; apply extends_consumes; solve [repeat ext_step]
      | intros ? ] ].

Lemma short_parseHeader : short parseHeader parseHeader.
Proof. unfold parseHeader. repeat short_step. Qed.

Lemma short_entry_tail version :
  short
    (if 4 <=? version then
       bind readUint8 (fun velocity =>
       bind readUint8 (fun panning =>
       bind readInt16 (fun pitch => ret (velocity, panning, pitch))))
     else ret (100, 100, 0))
    (if 4 <=? version then
       bind readUint8 (fun velocity =>
       bind readUint8 (fun panning =>
       bind readInt16 (fun pitch => ret (velocity, panning, pitch))))
     else ret (100, 100, 0)).
Proof. destruct (4 <=? version); repeat short_step. Qed.

(** What the layer loop does after a jump other than 0 was read. *)
Lemma layer_entry_consumes fuel version tick layer allNotess :
  consumes 0
    (bind readUint8 (fun instrument =>
     bind readUint8 (fun key =>
     bind (if 4 <=? version then
             bind readUint8 (fun velocity =>
             bind readUint8 (fun panning =>
             bind readInt16 (fun pitch => ret (velocity, panning, pitch))))
           else ret (100, 100, 0))
          (fun vpp =>
             let '(velocity, panning, pitch) := vpp in
             if key =? 0 then layerLoop fuel version tick layer allNotess
             else layerLoop fuel version tick layer
                    (allNotess ++
                     [mkNotes tick layer instrument key velocity panning pitch]))))).
Proof.
  apply (consumes_bind 0 0); [apply extends_consumes, extends_readUint8 | | lia].
  intros instrument.
  apply (consumes_bind 0 0); [apply extends_consumes, extends_readUint8 | | lia].
  intros key.
  apply (consumes_bind 0 0); [apply extends_consumes, extends_entry_tail | | lia].
  intros [[velocity panning] pitch].
  destruct (key =? 0); apply extends_consumes, extends_layerLoop; lia.
Qed.

Lemma short_layerLoop fuel fuel' version tick layer allNotess :
  (fuel <= fuel')%nat ->
  short (layerLoop fuel version tick layer allNotess)
        (layerLoop fuel' version tick layer allNotess).
Proof.
  revert fuel' layer allNotess.
  induction fuel as [|fuel IH]; intros fuel' layer allNotess Hle.
  - intros xs ys e Hrun. discriminate.
  - destruct fuel' as [|fuel']; [lia |]. cbn [layerLoop].
    apply short_bind; [apply short_readUint16 | apply extends_readUint16 | |].
    + intros j. destruct (j =? 0); [apply consumes_ret |].
      apply layer_entry_consumes.
    + intros j. destruct (j =? 0); [apply short_ret |].
      apply short_bind; [apply short_readUint8 | apply extends_readUint8 | |].
      { intros instrument.
        apply (consumes_bind 0 0); [apply extends_consumes, extends_readUint8 | | lia].
        intros key.
        apply (consumes_bind 0 0); [apply extends_consumes, extends_entry_tail | | lia].
        intros [[velocity panning] pitch].
        destruct (key =? 0); apply extends_consumes, extends_layerLoop; lia. }
      intros instrument.
      apply short_bind; [apply short_readUint8 | apply extends_readUint8 | |].
      { intros key.
        apply (consumes_bind 0 0); [apply extends_consumes, extends_entry_tail | | lia].
        intros [[velocity panning] pitch].
        destruct (key =? 0); apply extends_consumes, extends_layerLoop; lia. }
      intros key.
      apply short_bind; [apply short_entry_tail | apply extends_entry_tail | |].
      { intros [[velocity panning] pitch].
        destruct (key =? 0); apply extends_consumes, extends_layerLoop; lia. }
      intros [[velocity panning] pitch].
      destruct (key =? 0); apply IH; lia.
Qed.

Lemma short_tickLoop fuel fuel' version tick allNotess :
  (fuel <= fuel')%nat ->
  short (tickLoop fuel version tick allNotess)
        (tickLoop fuel' version tick allNotess).
Proof.
  revert fuel' tick allNotess.
  induction fuel as [|fuel IH]; intros fuel' tick allNotess Hle.
  - intros xs ys e Hrun. discriminate.
  - destruct fuel' as [|fuel']; [lia |]. cbn [tickLoop].
    apply short_bind; [apply short_readUint16 | apply extends_readUint16 | |].
    + intros j. destruct (j =? 0); [apply consumes_ret |].
      apply (consumes_bind 0 0); [| | lia].
      * apply extends_consumes, extends_layerLoop. lia.
      * intros notes. apply extends_consumes, extends_tickLoop. lia.
    + intros j. destruct (j =? 0); [apply short_ret |].
      apply short_bind.
      * apply short_layerLoop. lia.
      * apply extends_layerLoop. lia.
      * intros notes. apply extends_consumes, extends_tickLoop. lia.
      * intros notes. apply IH. lia.
Qed.

Lemma short_parse fuel fuel' :
  (fuel <= fuel')%nat -> short (parse fuel) (parse fuel').
Proof.
  intros Hle. unfold parse.
  apply short_bind; [apply short_parseHeader | apply extends_parseHeader | |].
  - intros h. apply (consumes_bind 0 0); [| | lia].
    + apply extends_consumes, extends_tickLoop. lia.
    + intros notes. apply consumes_ret.
  - intros h.
    apply short_bind; [apply short_tickLoop, Hle | apply extends_tickLoop, Hle | |].
    + intros notes. apply consumes_ret.
    + intros notes. apply short_ret.
Qed.

(** The bytes read are all that matter: a file that decodes, cut anywhere
    at or after the last byte read, decodes to the same data; with the cut
    before that byte it gives an error, so [consumed] is the exact number of
    bytes a file needs. *)
Theorem ParseNBS_cut file data n :
  ParseNBS file = (Some data, None) ->
  ((consumed file <= n)%nat -> ParseNBS (take n file) = (Some data, None)) /\
  ((n < consumed file)%nat -> exists e, ParseNBS (take n file) = (None, Some e)).
Proof.
  intros Hok. apply ParseNBS_Some in Hok as [rest Hrun].
  unfold consumed. rewrite Hrun.
  assert (Hfile : take n file ++ drop n file = file) by apply take_drop.
  assert (Hfuel : (S (length (take n file)) <= S (length file))%nat)
    by (rewrite length_take; lia).
  split; intros Hn.
  - destruct (ParseNBS_cases (take n file))
      as [(data' & rest' & Hrun' & Hok')|(e & Hrun' & _)].
    + destruct (extends_parse _ _ Hfuel _ _ _ Hrun') as [_ Hlong].
      specialize (Hlong (drop n file)). rewrite Hfile, Hrun in Hlong.
      injection Hlong as -> _. exact Hok'.
    + exfalso.
      pose proof (short_parse _ _ Hfuel (take n file) (drop n file) e Hrun'
                    data rest) as Hlt.
      rewrite Hfile in Hlt. specialize (Hlt Hrun).
      rewrite length_drop in Hlt. lia.
  - destruct (ParseNBS_cases (take n file))
      as [(data' & rest' & Hrun' & _)|(e & _ & He)]; [| eauto].
    exfalso.
    destruct (extends_parse _ _ Hfuel _ _ _ Hrun') as [_ Hlong].
    specialize (Hlong (drop n file)). rewrite Hfile, Hrun in Hlong.
    injection Hlong as _ Hrest. apply (f_equal length) in Hrest.
    rewrite length_app, length_drop in Hrest. lia.
Qed.

Lemma ParseNBS_cut_witness :
  ParseNBS (take 71 (Samples.oneNote ++ [B 1; B 2]))
  = (Some (Samples.dataOf Samples.oneNote), None).
Proof.
  apply (ParseNBS_cut (Samples.oneNote ++ [B 1; B 2])
           (Samples.dataOf Samples.oneNote) 71).
  - vm_compute. reflexivity.
  - vm_compute. lia.
Defined.

(** ** The ranges of the decoded fields *)

Lemma int16_range z : -32768 <= int16 z < 32768.
Proof.
  unfold int16, wrapS.
  pose proof (Z.mod_pos_bound (z + 2 ^ (16 - 1)) (2 ^ 16) ltac:(lia)) as Hm.
  change (2 ^ (16 - 1)) with 32768 in *. change (2 ^ 16) with 65536 in *. lia.
Qed.

Lemma okPost_entry_tail_values version file (Q : Z * Z * Z -> list byte -> Prop) :
  (forall velocity panning pitch rest,
      tailOf version velocity panning pitch -> Q (velocity, panning, pitch) rest) ->
  okPost
    (if 4 <=? version then
       bind readUint8 (fun velocity =>
       bind readUint8 (fun panning =>
       bind readInt16 (fun pitch => ret (velocity, panning, pitch))))
     else ret (100, 100, 0)) file Q.
Proof.
  unfold tailOf. destruct (4 <=? version); intros HQ.
  - apply okPost_bind, okPost_readUint8. intros b0 file1 _.
    apply okPost_bind, okPost_readUint8. intros b1 file2 _.
    apply okPost_bind. intros pitch file3 Hrun.
    apply okPost_ret, HQ.
    pose proof (byteZ_range b0). pose proof (byteZ_range b1).
    unfold readInt16, bind, ret in Hrun.
    destruct (ReadFull 2 file2) as [[bs r]|e|]; try discriminate.
    injection Hrun as <- <-. pose proof (int16_range (leUint16 bs)). lia.
  - apply okPost_ret, HQ. lia.
Qed.

(** Whatever holds of every note an entry can stand for holds of all notes
    when the loops return. *)
Lemma layerLoop_Forall_fields (P : Notes -> Prop) fuel version tick layer allNotess file :
  (forall layer' instrument key velocity panning pitch,
      0 <= instrument < 256 -> 1 <= key < 256 ->
      tailOf version velocity panning pitch ->
      P (mkNotes tick layer' instrument key velocity panning pitch)) ->
  Forall P allNotess ->
  okPost (layerLoop fuel version tick layer allNotess) file
         (fun notes _ => Forall P notes).
Proof.
  intros HP. revert layer allNotess file.
  induction fuel as [|fuel IH]; intros layer allNotess file Hall.
  - intros a rest Hrun. discriminate.
  - cbn [layerLoop]. apply okPost_bind, okPost_readUint16. intros b0 b1 file1 _.
    destruct (leUint16 [b0; b1] =? 0); [apply okPost_ret, Hall |].
    apply okPost_bind, okPost_readUint8. intros instrument file2 _.
    apply okPost_bind, okPost_readUint8. intros key file3 _.
    apply okPost_bind, okPost_entry_tail_values.
    intros velocity panning pitch file4 Htail.
    destruct (byteZ key =? 0) eqn:Hkey; apply IH; [exact Hall |].
    apply Forall_app. split; [exact Hall |].
    apply Forall_singleton, HP; [apply byteZ_range | | exact Htail].
    pose proof (byteZ_range key). lia.
Qed.

Lemma tickLoop_Forall_fields (P : Notes -> Prop) fuel version tick allNotess file :
  (forall tick' layer' instrument key velocity panning pitch,
      0 <= instrument < 256 -> 1 <= key < 256 ->
      tailOf version velocity panning pitch ->
      P (mkNotes tick' layer' instrument key velocity panning pitch)) ->
  Forall P allNotess ->
  okPost (tickLoop fuel version tick allNotess) file
         (fun notes _ => Forall P notes).
Proof.
  intros HP. revert tick allNotess file.
  induction fuel as [|fuel IH]; intros tick allNotess file Hall.
  - intros a rest Hrun. discriminate.
  - cbn [tickLoop]. apply okPost_bind, okPost_readUint16. intros b0 b1 file1 _.
    destruct (leUint16 [b0; b1] =? 0); [apply okPost_ret, Hall |].
    apply okPost_bind.
    eapply okPost_mono; [| apply (layerLoop_Forall_fields P); [auto | exact Hall]].
    intros notes file2 Hnotes. apply IH, Hnotes.
Qed.

Lemma parseHeader_ranges file h body :
  parseHeader file = Ok (h, body) ->
  0 <= hLength h < 65536 /\ 0 <= hVersion h < 256 /\
  0 <= hLayers h < 65536 /\ 0 <= hTempoRaw h < 65536.
Proof.
  revert h body. change (okPost parseHeader file
    (fun h _ => 0 <= hLength h < 65536 /\ 0 <= hVersion h < 256 /\
                0 <= hLayers h < 65536 /\ 0 <= hTempoRaw h < 65536)).
  unfold parseHeader.
  apply okPost_bind, okPost_readUint16. intros l0 l1 file1 _.
  apply okPost_bind, okPost_readUint8. intros v file2 _.
  apply okPost_bind. intros ? file3 _.
  apply okPost_bind, okPost_readUint16. intros y0 y1 file4 _.
  apply okPost_bind. intros ? file5 _.
  apply okPost_bind. intros ? file6 _.
  apply okPost_bind, okPost_readUint16. intros t0 t1 file7 _.
  apply okPost_bind. intros ? file8 _.
  apply okPost_bind. intros ? file9 _.
  apply okPost_bind. intros ? file10 _.
  apply okPost_bind. intros ? file11 _.
  apply okPost_bind. intros ? file12 _.
  apply okPost_ret. cbn [hLength hVersion hLayers hTempoRaw].
  pose proof (leUint16_range l0 l1). pose proof (leUint16_range y0 y1).
  pose proof (leUint16_range t0 t1). pose proof (byteZ_range v). lia.
Qed.

Lemma inferLength_range declared (notes : list Notes) :
  0 <= declared < 65536 -> 0 <= inferLength declared notes < 65536.
Proof.
  intros Hd. unfold inferLength.
  destruct ((declared =? 0) && (0 <? Z.of_nat (length notes)));
    [apply uint16_range | exact Hd].
Qed.

(** Every number in the decoded data is within the type it has in the
    source: version a uint8, length and layers a uint16, and in every note
    instrument, velocity and panning a uint8, key a uint8 other than 0,
    pitch an int16; the same holds in the song made of it. *)
Theorem decoded_fields_in_range file data :
  ParseNBS file = (Some data, None) ->
  0 <= Version data < 256 /\
  0 <= Length data < 65536 /\
  0 <= Layers data < 65536 /\
  Forall inRange (Notess data) /\
  Forall (fun n => 0 <= Instrument n < 256 /\ 1 <= Key n < 256 /\
                   0 <= Velocity n < 256 /\ 0 <= Panning n < 256 /\
                   -32768 <= Pitch n < 32768)
         (sNotes (nbsConverter data)).
Proof.
  intros Hok. apply ParseNBS_Some in Hok as [rest Hrun].
  apply parse_Ok in Hrun as (h & body & notes & Hh & Hloop & ->).
  apply parseHeader_ranges in Hh as (Hlen & Hver & Hlay & _).
  assert (Hnotes : Forall inRange notes).
  { revert Hloop. apply tickLoop_Forall_fields; [| constructor].
    intros tick' layer' instrument key velocity panning pitch Hi Hk Ht.
    unfold inRange, tailOf in *. simpl.
    destruct (4 <=? hVersion h); lia. }
  simpl. split; [exact Hver |]. split; [apply inferLength_range, Hlen |].
  split; [exact Hlay |]. split; [exact Hnotes |].
  apply Forall_map. eapply Forall_impl; [exact Hnotes |].
  intros n Hn. exact Hn.
Qed.

Lemma decoded_fields_in_range_witness :
  Forall inRange (Notess (Samples.dataOf Samples.withPlaceholder)).
Proof.
  apply (decoded_fields_in_range Samples.withPlaceholder).
  vm_compute. reflexivity.
Defined.

(** In a file of a version before 4 every note has velocity 100, panning
    100 and pitch 0, whatever its bytes. *)
Theorem old_versions_default file data :
  ParseNBS file = (Some data, None) ->
  Version data < 4 ->
  Forall (fun n => nVelocity n = 100 /\ nPanning n = 100 /\ nPitch n = 0)
         (Notess data).
Proof.
  intros Hok Hver. apply ParseNBS_Some in Hok as [rest Hrun].
  apply parse_Ok in Hrun as (h & body & notes & Hh & Hloop & ->).
  simpl in Hver |- *. revert Hloop.
  apply tickLoop_Forall_fields; [| constructor].
  intros tick' layer' instrument key velocity panning pitch _ _ Ht.
  unfold tailOf in Ht. assert ((4 <=? hVersion h) = false) as Hb by lia.
  rewrite Hb in Ht. exact Ht.
Qed.

Lemma old_versions_default_witness :
  Forall (fun n => nVelocity n = 100 /\ nPanning n = 100 /\ nPitch n = 0)
         (Notess (Samples.dataOf Samples.longSong)).
Proof.
  apply (old_versions_default Samples.longSong).
  - vm_compute. reflexivity.
  - vm_compute. reflexivity.
Defined.

(** ** The readers *)

Lemma leUint32_eq b0 b1 b2 b3 :
  leUint32 [b0; b1; b2; b3]
  = byteZ b0 + 256 * byteZ b1 + 65536 * byteZ b2 + 16777216 * byteZ b3.
Proof.
  unfold leUint32.
  pose proof (byteZ_range b0). pose proof (byteZ_range b1).
  pose proof (byteZ_range b2).
  rewrite (lor_shiftl_add (byteZ b0)) by lia.
  rewrite (lor_shiftl_add (byteZ b0 + byteZ b1 * 2 ^ 8)) by lia.
  rewrite lor_shiftl_add by lia. lia.
Qed.

(** The readers are little-endian: a 16-bit value is [b0 + 256 b1], a
    32-bit value [b0 + 256 b1 + 65536 b2 + 16777216 b3], and an int16 is
    the 16-bit value taken as two's complement; each leaves the bytes after
    its own.  With too few bytes left, the error is [io.EOF] when none is
    left and [io.ErrUnexpectedEOF] otherwise. *)
Theorem readers_little_endian b0 b1 b2 b3 rest :
  readUint8 (b0 :: rest) = Ok (byteZ b0, rest) /\
  readUint16 (b0 :: b1 :: rest) = Ok (byteZ b0 + 256 * byteZ b1, rest) /\
  readUint32 (b0 :: b1 :: b2 :: b3 :: rest)
  = Ok (byteZ b0 + 256 * byteZ b1 + 65536 * byteZ b2 + 16777216 * byteZ b3, rest) /\
  readInt16 (b0 :: b1 :: rest)
  = Ok (let u := byteZ b0 + 256 * byteZ b1 in
        if u <? 32768 then u else u - 65536, rest) /\
  readUint16 [] = Err EOF /\ readUint16 [b0] = Err ErrUnexpectedEOF /\
  readUint32 [] = Err EOF /\ readUint32 [b0; b1; b2] = Err ErrUnexpectedEOF /\
  readUint8 [] = Err EOF.
Proof.
  split_and!; try reflexivity.
  - change (readUint16 (b0 :: b1 :: rest)) with (Ok (leUint16 [b0; b1], rest)).
    rewrite leUint16_eq. reflexivity.
  - change (readUint32 (b0 :: b1 :: b2 :: b3 :: rest))
      with (Ok (leUint32 [b0; b1; b2; b3], rest)).
    rewrite leUint32_eq. reflexivity.
  - rewrite readInt16_cons, leUint16_eq. f_equal. f_equal. cbv zeta.
    pose proof (byteZ_range b0). pose proof (byteZ_range b1).
    unfold int16, wrapS. change (2 ^ (16 - 1)) with 32768. change (2 ^ 16) with 65536.
    destruct (Z.ltb_spec (byteZ b0 + 256 * byteZ b1) 32768).
    + rewrite Z.mod_small by lia. lia.
    + replace (byteZ b0 + 256 * byteZ b1 + 32768)
        with (byteZ b0 + 256 * byteZ b1 - 32768 + 1 * 65536) by lia.
      rewrite Z.mod_add by lia. rewrite Z.mod_small by lia. lia.
Qed.

(** [readString] takes the 4 bytes of the length (little-endian) and then
    exactly that many bytes; it returns those bytes cleaned by [cleanString]
    and leaves what follows them.  When fewer bytes are left than the length
    says it gives an error and no string. *)
Theorem readString_exact b0 b1 b2 b3 tail :
  let len := Z.to_nat (byteZ b0 + 256 * byteZ b1 + 65536 * byteZ b2
                       + 16777216 * byteZ b3) in
  ((len <= length tail)%nat ->
   readString (b0 :: b1 :: b2 :: b3 :: tail)
   = Ok (cleanString (take len tail), drop len tail)) /\
  ((length tail < len)%nat ->
   exists e, readString (b0 :: b1 :: b2 :: b3 :: tail) = Err e).
Proof.
  intros len. unfold readString.
  assert (Hread : readUint32 (b0 :: b1 :: b2 :: b3 :: tail)
                  = Ok (leUint32 [b0; b1; b2; b3], tail)) by reflexivity.
  rewrite (bind_run _ _ _ _ _ Hread), leUint32_eq.
  fold len.
  pose proof (byteZ_range b0). pose proof (byteZ_range b1).
  pose proof (byteZ_range b2). pose proof (byteZ_range b3).
  set (z := byteZ b0 + 256 * byteZ b1 + 65536 * byteZ b2 + 16777216 * byteZ b3) in *.
  destruct (Z.eqb_spec z 0) as [Hz|Hz].
  - assert (len = 0%nat) as -> by (unfold len; lia).
    split; [intros _; rewrite drop_0; reflexivity | lia].
  - split.
    + intros Hle.
      assert (Hfull : ReadFull len tail = Ok (take len tail, drop len tail)).
      { unfold ReadFull.
        assert ((length tail <? len)%nat = false) as -> by (apply Nat.ltb_ge; lia).
        reflexivity. }
      rewrite (bind_run _ _ _ _ _ Hfull). reflexivity.
    + intros Hlt. destruct (ReadFull_short len tail Hlt) as (e & He).
      exists e. unfold bind. rewrite He. reflexivity.
Qed.

Lemma readString_exact_witness :
  readString ([B 6; B 0; B 0; B 0]
              ++ [B 32; B 97; B 0; B 98; B 194; B 160; B 100])
  = Ok ([B 97; B 98], [B 100]).
Proof.
  apply (proj1 (readString_exact (B 6) (B 0) (B 0) (B 0)
                  [B 32; B 97; B 0; B 98; B 194; B 160; B 100])).
  vm_compute. lia.
Defined.

(** * More properties of the scheduler *)

(** ** The notes of a tick *)

Lemma group_lookup (notes : list Note) (m : gmap Z (list Note)) t :
  fold_left (fun m note => <[Tick note := default [] (m !! Tick note) ++ [note]]> m)
            notes m !! t
  = match filter (fun n => Tick n = t) notes with
    | [] => m !! t
    | l => Some (default [] (m !! t) ++ l)
    end.
Proof.
  revert m. induction notes as [|n notes IH]; intros m; [reflexivity |].
  cbn [fold_left]. rewrite IH. rewrite filter_cons.
  destruct (decide (Tick n = t)) as [Heq|Hne].
  - subst t. rewrite lookup_insert_eq. cbn [default from_option]. unfold id.
    destruct (filter (fun n0 => Tick n0 = Tick n) notes) as [|n1 l]; [reflexivity |].
    rewrite <- app_assoc. reflexivity.
  - rewrite lookup_insert_ne by exact Hne. reflexivity.
Qed.

Lemma playTick_filter eh song t :
  playTick eh song t
  = flat_map (playNote eh) (filter (fun n => Tick n = t) (sNotes song)).
Proof.
  unfold playTick, notesPerTick. rewrite group_lookup, lookup_empty.
  destruct (filter (fun n => Tick n = t) (sNotes song)); reflexivity.
Qed.

(** Grouping by tick loses nothing and keeps the order: a tick has an entry
    in [notesPerTick] exactly when the song has a note at it, and the entry
    is the song's notes at that tick, in the song's order. *)
Theorem notesPerTick_groups song t :
  notesPerTick song !! t
  = match filter (fun n => Tick n = t) (sNotes song) with
    | [] => None
    | l => Some l
    end.
Proof.
  unfold notesPerTick. rewrite group_lookup, lookup_empty.
  destruct (filter (fun n => Tick n = t) (sNotes song)); reflexivity.
Qed.

(** ** What a run does *)

Lemma elem_of_ticks a n t : In t (ticks a n) <-> a <= t < a + Z.of_nat n.
Proof.
  unfold ticks. rewrite in_map_iff. split.
  - intros (i & <- & Hi). apply in_seq in Hi. lia.
  - intros Ht. exists (Z.to_nat (t - a)). split; [lia |].
    apply in_seq. lia.
Qed.

(** The actions of a run, by the way the loop was left. *)
Lemma playSong_actions durationOfTempo env eh song fuel w ex acts w' :
  sLength song < maxInt ->
  playSong durationOfTempo env eh song fuel w = Some (ex, acts, w') ->
  acts = flat_map (tickActions durationOfTempo eh song)
                  (ticks 0 (Z.to_nat (lastTick song ex + 1)))
         ++ [finished eh] /\
  match ex with
  | Cancelled t => 0 <= t <= sLength song
  | Finished => True
  end.
Proof.
  intros Hlen. unfold playSong.
  destruct (startSession eh w) as [stopChan w1].
  destruct (tickIter durationOfTempo env eh song fuel stopChan 0 0 w1)
    as [[[ex1 acts1] w2]|] eqn:Hrun; [| discriminate].
  intros [= <- <- <-].
  apply (tickIter_spec durationOfTempo env eh song fuel stopChan 0) in Hrun;
    [| lia | exact Hlen].
  destruct ex1 as [t|]; simpl lastTick.
  - destruct Hrun as [Ht ->]. split; [| exact Ht].
    replace (t - 1 + 1) with (t - 0) by lia. reflexivity.
  - split; [| exact I]. rewrite Hrun, Z.sub_0_r. reflexivity.
Qed.

Lemma Printf_in_ticks durationOfTempo eh song (l : list Z) note p :
  In (Printf note p) (flat_map (tickActions durationOfTempo eh song) l) <->
  In (Tick note) l /\ In note (sNotes song) /\ p = pitchKey (Key note).
Proof.
  rewrite in_flat_map. split.
  - intros (t & Ht & Hin). unfold tickActions in Hin.
    apply in_app_or in Hin as [Hin|Hin].
    { destruct (0 <? t); simpl in Hin; [destruct Hin as [Hin|[]]; discriminate | destruct Hin]. }
    rewrite playTick_filter in Hin.
    apply in_flat_map in Hin as (n & Hn & Hin).
    apply list_elem_of_In, list_elem_of_filter in Hn as [Htick Hn].
    simpl in Hin. destruct Hin as [Hin|[Hin|[]]]; [| discriminate].
    injection Hin as -> <-. subst t.
    split; [exact Ht |]. split; [apply list_elem_of_In, Hn | reflexivity].
  - intros (Ht & Hn & ->). exists (Tick note). split; [exact Ht |].
    unfold tickActions. apply in_or_app. right.
    rewrite playTick_filter. apply in_flat_map. exists note. split.
    + apply list_elem_of_In, list_elem_of_filter.
      split; [reflexivity | apply list_elem_of_In, Hn].
    + simpl. left. reflexivity.
Qed.

(** A run plays exactly the notes whose tick is between 0 and the last tick
    the loop went through (the song's length, or the tick before the one it
    was cancelled at): a note with a negative tick or a tick after the
    length is never played, every other note is, with the pitch
    [pitchKey] gives its key. *)
Theorem playSong_plays durationOfTempo env eh song fuel w ex acts w' note p :
  sLength song < maxInt ->
  playSong durationOfTempo env eh song fuel w = Some (ex, acts, w') ->
  In (Printf note p) acts <->
  In note (sNotes song) /\ 0 <= Tick note <= lastTick song ex /\
  p = pitchKey (Key note).
Proof.
  intros Hlen Hrun.
  destruct (playSong_actions _ _ _ _ _ _ _ _ _ Hlen Hrun) as [-> Hex].
  rewrite in_app_iff, Printf_in_ticks, elem_of_ticks.
  split.
  - intros [(Ht & Hn & Hp)|[Hf|[]]]; [| discriminate]. split_and!; auto; lia.
  - intros (Hn & Ht & Hp). left. split_and!; auto; lia.
Qed.

Lemma playSong_plays_witness :
  In (Printf (mkNote 5 0 99 45 100 100 0) 12)
     (flat_map (tickActions PlaySamples.exactDuration PlaySamples.listener
                            PlaySamples.song005) (ticks 0 6)
      ++ [finished PlaySamples.listener]).
Proof.
  apply (playSong_plays PlaySamples.exactDuration PlaySamples.quiet
           PlaySamples.listener PlaySamples.song005 10 PlaySamples.idle
           Finished _ (mkWorld ∅ {[1%positive := false]})).
  - vm_compute. reflexivity.
  - vm_compute. reflexivity.
  - split_and!; [vm_compute; tauto | vm_compute; discriminate
                 | vm_compute; discriminate | reflexivity].
Defined.

(** ** Runs under an invariant of the shared state *)

Section RunFacts.

Variable durationOfTempo : Q -> Z.
Variable env : Z -> World -> World.
Variable eh : EntityHandle.
Variable song : Song.

(** What is known of the shared state at every poll. *)
Variable J : World -> Prop.

#[local] Abbreviation tickIter'' := (tickIter durationOfTempo env eh song).
#[local] Abbreviation tickActions'' := (tickActions durationOfTempo eh song).

(** No signal ever comes: the loop goes through every tick. *)
Lemma tickIter_finishes fuel stopChan tick w :
  0 <= tick -> sLength song < maxInt ->
  (Z.to_nat (sLength song + 1 - tick) < fuel)%nat ->
  (forall t w0, J w0 -> J (env t w0)) ->
  (forall w0, J w0 -> chans w0 !! stopChan <> Some true) ->
  J w ->
  exists w',
    J w' /\
    tickIter'' fuel stopChan tick (Z.max 0 (tick - 1)) w
    = Some (Finished,
            flat_map tickActions'' (ticks tick (Z.to_nat (sLength song + 1 - tick))),
            w').
Proof.
  intros Htick Hlen Hfuel Henv Hno. revert tick w Htick Hfuel.
  induction fuel as [|fuel IH]; intros tick w Htick Hfuel HJ; [lia |].
  destruct (Z.leb_spec tick (sLength song)) as [Hle|Hgt].
  - rewrite tickIter_go by (auto; lia).
    destruct (IH (tick + 1) (env tick w) ltac:(lia) ltac:(lia) (Henv _ _ HJ))
      as (w' & HJ' & ->).
    exists w'. split; [exact HJ' |].
    replace (Z.to_nat (sLength song + 1 - tick))
      with (S (Z.to_nat (sLength song + 1 - (tick + 1)))) by lia.
    rewrite ticks_S. reflexivity.
  - exists w. split; [exact HJ |]. cbn [tickIter].
    assert ((tick <=? sLength song) = false) as -> by lia.
    replace (Z.to_nat (sLength song + 1 - tick)) with O by lia. reflexivity.
Qed.

(** The first signal is there at the poll of tick [t0]: the loop goes
    through the ticks before [t0] and is left there. *)
Lemma tickIter_cancelled_at fuel stopChan tick t0 w :
  0 <= tick <= t0 -> t0 <= sLength song -> sLength song < maxInt ->
  (Z.to_nat (t0 - tick) < fuel)%nat ->
  (forall t w0, t < t0 -> J w0 -> J (env t w0)) ->
  (forall w0, J w0 -> chans w0 !! stopChan <> Some true) ->
  (forall w0, J w0 -> chans (env t0 w0) !! stopChan = Some true) ->
  J w ->
  exists w1,
    J w1 /\
    tickIter'' fuel stopChan tick (Z.max 0 (tick - 1)) w
    = Some (Cancelled t0,
            flat_map tickActions'' (ticks tick (Z.to_nat (t0 - tick))),
            snd (tryRecv stopChan (env t0 w1))).
Proof.
  intros Htick Ht0 Hlen Hfuel Henv Hno Hsig. revert tick w Htick Hfuel.
  induction fuel as [|fuel IH]; intros tick w Htick Hfuel HJ; [lia |].
  destruct (Z.eq_dec tick t0) as [->|Hne].
  - exists w. split; [exact HJ |].
    rewrite tickIter_cancel by (auto; lia).
    rewrite Z.sub_diag. reflexivity.
  - assert (HJ' : J (env tick w)) by (apply Henv; [lia | exact HJ]).
    rewrite tickIter_go by (auto; lia).
    destruct (IH (tick + 1) (env tick w) ltac:(lia) ltac:(lia) HJ')
      as (w1 & HJ1 & ->).
    exists w1. split; [exact HJ1 |].
    replace (Z.to_nat (t0 - tick)) with (S (Z.to_nat (t0 - (tick + 1)))) by lia.
    rewrite ticks_S. reflexivity.
Qed.

End RunFacts.

(** The channel [startSession] makes is new and its slot is empty. *)
Lemma startSession_chan eh w :
  chans w !! fst (startSession eh w) = None /\
  chans (snd (startSession eh w)) !! fst (startSession eh w) = Some false /\
  forall ch, is_Some (chans w !! ch) -> ch <> fst (startSession eh w).
Proof.
  unfold startSession, makeChan.
  set (w0 := match stopPlayer w !! eh with
             | Some ch => trySend ch w
             | None => w
             end).
  assert (Hdom : forall ch, is_Some (chans w !! ch) -> is_Some (chans w0 !! ch)).
  { intros ch Hch. unfold w0. destruct (stopPlayer w !! eh) as [old|]; [| exact Hch].
    simpl. destruct (decide (old = ch)) as [->|Hne].
    - rewrite lookup_insert_eq. eauto.
    - rewrite lookup_insert_ne by exact Hne. exact Hch. }
  pose proof (is_fresh (dom (chans w0))) as Hfresh.
  simpl. split_and!.
  - destruct (chans w !! fresh (dom (chans w0))) eqn:Hl; [| reflexivity].
    exfalso. apply Hfresh, elem_of_dom, Hdom. eauto.
  - apply lookup_insert_eq.
  - intros ch Hch ->. apply Hfresh, elem_of_dom, Hdom, Hch.
Qed.

(** ** A run no one stops *)

(** When no goroutine sends a signal while the song plays, the run goes
    through every tick from 0 to the length and ends with the notice, and
    the listener's entry is removed. *)
Theorem playSong_uninterrupted durationOfTempo env eh song w :
  sLength song < maxInt ->
  (forall t w0 ch, chans (env t w0) !! ch = Some true -> chans w0 !! ch = Some true) ->
  exists w',
    playSong durationOfTempo env eh song (S (Z.to_nat (sLength song + 1))) w
    = Some (Finished,
            flat_map (tickActions durationOfTempo eh song)
                     (ticks 0 (Z.to_nat (sLength song + 1)))
            ++ [finished eh],
            w') /\
    stopPlayer w' !! eh = None.
Proof.
  intros Hlen Hquiet. unfold playSong.
  destruct (startSession_chan eh w) as (_ & Hempty & _).
  destruct (startSession eh w) as [stopChan w1]. simpl in Hempty.
  destruct (tickIter_finishes durationOfTempo env eh song
              (fun w0 => chans w0 !! stopChan <> Some true)
              (S (Z.to_nat (sLength song + 1))) stopChan 0 w1)
    as (w2 & _ & Hrun); try lia.
  - intros t w0 Hno Hsig. apply Hno, (Hquiet _ _ _ Hsig).
  - auto.
  - rewrite Hempty. discriminate.
  - change (Z.max 0 (0 - 1)) with 0 in Hrun. rewrite Hrun, Z.sub_0_r.
    eexists. split; [reflexivity |]. simpl. apply lookup_delete_eq.
Qed.

Lemma playSong_uninterrupted_witness :
  exists w',
    playSong PlaySamples.exactDuration PlaySamples.quiet PlaySamples.listener
             PlaySamples.song005 7 PlaySamples.idle
    = Some (Finished,
            flat_map (tickActions PlaySamples.exactDuration PlaySamples.listener
                                  PlaySamples.song005) (ticks 0 6)
            ++ [finished PlaySamples.listener],
            w') /\
    stopPlayer w' !! PlaySamples.listener = None.
Proof.
  apply (playSong_uninterrupted PlaySamples.exactDuration PlaySamples.quiet
           PlaySamples.listener PlaySamples.song005 PlaySamples.idle).
  - vm_compute. reflexivity.
  - intros t w0 ch Hsig. exact Hsig.
Defined.

Lemma startSession_registry eh w :
  stopPlayer (snd (startSession eh w))
  = <[eh := fst (startSession eh w)]> (stopPlayer w).
Proof. unfold startSession. destruct (stopPlayer w !! eh); reflexivity. Qed.

(** ** Stopping a run *)

(** [stopSong] is called while the scheduler sleeps before tick [t0]: it
    reports true, the run goes through the ticks before [t0] only and is
    left at the poll of [t0], the notice follows, the channel's slot is
    empty again and the listener has no entry. *)
Theorem stop_cancels durationOfTempo eh song w t0 :
  0 <= t0 <= sLength song -> sLength song < maxInt ->
  exists w',
    playSong durationOfTempo (PlaySamples.stopBefore t0 eh) eh song
             (S (Z.to_nat t0)) w
    = Some (Cancelled t0,
            flat_map (tickActions durationOfTempo eh song) (ticks 0 (Z.to_nat t0))
            ++ [finished eh],
            w') /\
    fst (stopSong eh (snd (startSession eh w))) = true /\
    stopPlayer w' !! eh = None /\
    chans w' !! fst (startSession eh w) = Some false.
Proof.
  intros Ht0 Hlen. unfold playSong.
  destruct (startSession_chan eh w) as (_ & Hempty & _).
  pose proof (startSession_registered eh w) as Hreg.
  destruct (startSession eh w) as [stopChan w1]. simpl in Hempty, Hreg. simpl fst. simpl snd.
  assert (Hstop : chans (PlaySamples.stopBefore t0 eh t0 w1) !! stopChan = Some true).
  { unfold PlaySamples.stopBefore. rewrite Z.eqb_refl. unfold stopSong.
    rewrite Hreg. simpl. apply lookup_insert_eq. }
  destruct (tickIter_cancelled_at durationOfTempo (PlaySamples.stopBefore t0 eh)
              eh song (fun w0 => w0 = w1) (S (Z.to_nat t0)) stopChan 0 t0 w1)
    as (w2 & -> & Hrun); try lia; auto.
  - intros t w0 Hlt ->. unfold PlaySamples.stopBefore.
    assert ((t =? t0) = false) as -> by lia. reflexivity.
  - intros w0 ->. rewrite Hempty. discriminate.
  - intros w0 ->. exact Hstop.
  - change (Z.max 0 (0 - 1)) with 0 in Hrun. rewrite Hrun, Z.sub_0_r.
    eexists. split; [reflexivity |]. split_and!.
    + unfold stopSong. rewrite Hreg. reflexivity.
    + simpl. apply lookup_delete_eq.
    + unfold tryRecv. rewrite Hstop. simpl. apply lookup_insert_eq.
Qed.

Lemma stop_cancels_witness :
  exists w',
    playSong PlaySamples.exactDuration
             (PlaySamples.stopBefore 2 PlaySamples.listener)
             PlaySamples.listener PlaySamples.song005 3 PlaySamples.idle
    = Some (Cancelled 2,
            flat_map (tickActions PlaySamples.exactDuration PlaySamples.listener
                                  PlaySamples.song005) (ticks 0 2)
            ++ [finished PlaySamples.listener],
            w').
Proof.
  destruct (stop_cancels PlaySamples.exactDuration PlaySamples.listener
              PlaySamples.song005 PlaySamples.idle 2) as (w' & Hrun & _).
  - vm_compute. split; discriminate.
  - vm_compute. reflexivity.
  - exists w'. exact Hrun.
Defined.

(** ** Playing again while a song plays *)

(** [playSong] is called again for the same listener while the first run
    sleeps before tick [t0]: the first run is left at the poll of [t0].  Its
    deferred function then deletes the listener's entry, which by then is
    the second call's: the second session's channel is there, with no
    signal, but the registry has no entry for the listener and [stopSong]
    reports false. *)
Theorem play_again_preempts durationOfTempo eh song w t0 :
  0 <= t0 <= sLength song -> sLength song < maxInt ->
  let w1 := snd (startSession eh w) in
  let second := fst (startSession eh w1) in
  exists w',
    playSong durationOfTempo (playBefore t0 eh) eh song (S (Z.to_nat t0)) w
    = Some (Cancelled t0,
            flat_map (tickActions durationOfTempo eh song) (ticks 0 (Z.to_nat t0))
            ++ [finished eh],
            w') /\
    stopPlayer (snd (startSession eh w1)) !! eh = Some second /\
    chans w' !! second = Some false /\
    stopPlayer w' !! eh = None /\
    fst (stopSong eh w') = false.
Proof.
  intros Ht0 Hlen. cbv zeta. unfold playSong.
  destruct (startSession_chan eh w) as (_ & Hempty & _).
  pose proof (startSession_registered eh w) as Hreg.
  destruct (startSession eh w) as [stopChan w1]. simpl in Hempty, Hreg. simpl snd.
  destruct (startSession_chan eh w1) as (_ & Hempty2 & Hnew).
  assert (Hne : stopChan <> fst (startSession eh w1)).
  { apply Hnew. rewrite Hempty. eauto. }
  assert (Hsig : chans (playBefore t0 eh t0 w1) !! stopChan = Some true).
  { unfold playBefore. rewrite Z.eqb_refl.
    unfold startSession. rewrite Hreg. unfold makeChan, trySend. simpl.
    rewrite lookup_insert_ne; [apply lookup_insert_eq |].
    intros Heq.
    apply (is_fresh (dom (<[stopChan:=true]> (chans w1)))).
    rewrite Heq. apply elem_of_dom. rewrite lookup_insert_eq. eauto. }
  destruct (tickIter_cancelled_at durationOfTempo (playBefore t0 eh)
              eh song (fun w0 => w0 = w1) (S (Z.to_nat t0)) stopChan 0 t0 w1)
    as (w2 & -> & Hrun); try lia; auto.
  - intros t w0 Hlt ->. unfold playBefore.
    assert ((t =? t0) = false) as -> by lia. reflexivity.
  - intros w0 ->. rewrite Hempty. discriminate.
  - intros w0 ->. exact Hsig.
  - change (Z.max 0 (0 - 1)) with 0 in Hrun. rewrite Hrun, Z.sub_0_r.
    eexists. split; [reflexivity |].
    assert (Hgone : stopPlayer
                      (mkWorld
                         (delete eh (stopPlayer (snd (tryRecv stopChan (playBefore t0 eh t0 w1)))))
                         (chans (snd (tryRecv stopChan (playBefore t0 eh t0 w1)))))
                    !! eh = None) by (simpl; apply lookup_delete_eq).
    split_and!.
    + apply startSession_registered.
    + unfold tryRecv. rewrite Hsig. simpl.
      rewrite lookup_insert_ne by exact Hne.
      unfold playBefore. rewrite Z.eqb_refl. exact Hempty2.
    + exact Hgone.
    + unfold stopSong. rewrite Hgone. reflexivity.
Qed.

Lemma play_again_preempts_witness :
  exists w',
    playSong PlaySamples.exactDuration (playBefore 2 PlaySamples.listener)
             PlaySamples.listener PlaySamples.song005 3 PlaySamples.idle
    = Some (Cancelled 2,
            flat_map (tickActions PlaySamples.exactDuration PlaySamples.listener
                                  PlaySamples.song005) (ticks 0 2)
            ++ [finished PlaySamples.listener],
            w') /\
    fst (stopSong PlaySamples.listener w') = false.
Proof.
  destruct (play_again_preempts PlaySamples.exactDuration PlaySamples.listener
              PlaySamples.song005 PlaySamples.idle 2)
    as (w' & Hrun & _ & _ & _ & Hstop).
  - vm_compute. split; discriminate.
  - vm_compute. reflexivity.
  - exists w'. split; [exact Hrun | exact Hstop].
Defined.

(** ** Other listeners *)

(** [stopSong] for another listener, at any time, does not stop this
    listener's run (given that the channels in the registry were all
    made): the run goes through every tick. *)
Theorem stop_of_other_listener durationOfTempo eh other song w t0 :
  other <> eh -> sLength song < maxInt ->
  (forall e c, stopPlayer w !! e = Some c -> is_Some (chans w !! c)) ->
  exists w',
    playSong durationOfTempo (PlaySamples.stopBefore t0 other) eh song
             (S (Z.to_nat (sLength song + 1))) w
    = Some (Finished,
            flat_map (tickActions durationOfTempo eh song)
                     (ticks 0 (Z.to_nat (sLength song + 1)))
            ++ [finished eh],
            w').
Proof.
  intros Hother Hlen Halloc. unfold playSong.
  destruct (startSession_chan eh w) as (_ & Hempty & Hnew).
  pose proof (startSession_registry eh w) as Hreg.
  destruct (startSession eh w) as [stopChan w1]. simpl in Hempty, Hnew, Hreg.
  destruct (tickIter_finishes durationOfTempo (PlaySamples.stopBefore t0 other)
              eh song
              (fun w0 => chans w0 !! stopChan = Some false /\
                         forall e, stopPlayer w0 !! e = Some stopChan -> e = eh)
              (S (Z.to_nat (sLength song + 1))) stopChan 0 w1)
    as (w2 & _ & Hrun); try lia.
  - intros t w0 [Hfalse Hmine]. unfold PlaySamples.stopBefore.
    destruct (t =? t0); [| auto]. unfold stopSong.
    destruct (stopPlayer w0 !! other) as [c|] eqn:Hc; simpl; [| auto].
    assert (c <> stopChan) as Hne.
    { intros ->. apply Hother, Hmine, Hc. }
    split.
    + rewrite lookup_insert_ne by exact Hne. exact Hfalse.
    + intros e He. apply lookup_delete_Some in He as [_ He]. apply Hmine, He.
  - intros w0 [Hfalse _]. rewrite Hfalse. discriminate.
  - split; [exact Hempty |].
    intros e He. rewrite Hreg in He.
    destruct (decide (eh = e)) as [<-|Hne]; [reflexivity |].
    rewrite lookup_insert_ne in He by exact Hne.
    exfalso. apply (Hnew stopChan); [apply (Halloc e), He | reflexivity].
  - change (Z.max 0 (0 - 1)) with 0 in Hrun. rewrite Hrun, Z.sub_0_r. eauto.
Qed.

Lemma stop_of_other_listener_witness :
  exists w',
    playSong PlaySamples.exactDuration (PlaySamples.stopBefore 2 7%positive)
             PlaySamples.listener PlaySamples.song005 7
             (snd (startSession 7%positive PlaySamples.idle))
    = Some (Finished,
            flat_map (tickActions PlaySamples.exactDuration PlaySamples.listener
                                  PlaySamples.song005) (ticks 0 6)
            ++ [finished PlaySamples.listener],
            w') /\
    fst (stopSong 7%positive (snd (startSession 7%positive PlaySamples.idle))) = true.
Proof.
  destruct (stop_of_other_listener PlaySamples.exactDuration PlaySamples.listener
              7%positive PlaySamples.song005
              (snd (startSession 7%positive PlaySamples.idle)) 2)
    as [w' Hrun].
  - discriminate.
  - vm_compute. reflexivity.
  - intros e c He. rewrite startSession_registry in He.
    destruct (decide (7%positive = e)) as [<-|Hne].
    + rewrite lookup_insert_eq in He. injection He as Hc. subst c.
      exists false. apply (startSession_chan 7%positive PlaySamples.idle).
    + rewrite lookup_insert_ne in He by exact Hne.
      vm_compute in He. discriminate He.
  - exists w'. split; [exact Hrun | vm_compute; reflexivity].
Defined.

(** ** The registry stays well formed *)

(** Starting and stopping keep the registry well formed: every channel in
    it was made, and no two listeners share a channel. *)
Theorem sessions_well_formed eh w :
  wfWorld w ->
  wfWorld (snd (startSession eh w)) /\ wfWorld (snd (stopSong eh w)).
Proof.
  intros [Halloc Hinj]. split.
  - destruct (startSession_chan eh w) as (_ & Hempty & Hnew).
    pose proof (startSession_registry eh w) as Hreg.
    assert (Hkept : forall c, is_Some (chans w !! c) ->
                              is_Some (chans (snd (startSession eh w)) !! c)).
    { intros c Hc. unfold startSession, makeChan.
      destruct (stopPlayer w !! eh) as [old|]; simpl.
      - rewrite lookup_insert_is_Some. right. split.
        + intros Heq. apply (is_fresh (dom (<[old:=true]> (chans w)))).
          rewrite Heq. apply elem_of_dom, lookup_insert_is_Some'. right. exact Hc.
        + apply lookup_insert_is_Some'. right. exact Hc.
      - rewrite lookup_insert_is_Some. right. split; [| exact Hc].
        intros Heq. apply (is_fresh (dom (chans w))).
        rewrite Heq. apply elem_of_dom, Hc. }
    split.
    + intros e c He. rewrite Hreg in He.
      destruct (decide (eh = e)) as [<-|Hne].
      * rewrite lookup_insert_eq in He. injection He as Hc.
        subst c. exists false. exact Hempty.
      * rewrite lookup_insert_ne in He by exact Hne. apply Hkept, (Halloc e), He.
    + intros e1 e2 c He1 He2. rewrite Hreg in He1, He2.
      destruct (decide (eh = e1)) as [<-|Hne1], (decide (eh = e2)) as [<-|Hne2];
        try reflexivity.
      * rewrite lookup_insert_eq in He1. injection He1 as Hc.
        rewrite lookup_insert_ne in He2 by exact Hne2.
        exfalso. apply (Hnew _ (Halloc _ _ He2)). symmetry. exact Hc.
      * rewrite lookup_insert_eq in He2. injection He2 as Hc.
        rewrite lookup_insert_ne in He1 by exact Hne1.
        exfalso. apply (Hnew _ (Halloc _ _ He1)). symmetry. exact Hc.
      * rewrite lookup_insert_ne in He1 by exact Hne1.
        rewrite lookup_insert_ne in He2 by exact Hne2.
        exact (Hinj _ _ _ He1 He2).
  - unfold stopSong. destruct (stopPlayer w !! eh) as [ch|] eqn:Hch; simpl.
    + split.
      * intros e c He. simpl in He. apply lookup_delete_Some in He as [_ He].
        simpl. apply lookup_insert_is_Some'. right. apply (Halloc e), He.
      * intros e1 e2 c He1 He2. simpl in He1, He2.
        apply lookup_delete_Some in He1 as [_ He1].
        apply lookup_delete_Some in He2 as [_ He2].
        exact (Hinj _ _ _ He1 He2).
    + split; assumption.
Qed.

Lemma sessions_well_formed_witness :
  wfWorld (snd (startSession PlaySamples.listener PlaySamples.idle)).
Proof.
  apply (sessions_well_formed PlaySamples.listener PlaySamples.idle).
  split.
  - intros e c He. vm_compute in He. discriminate He.
  - intros e1 e2 c He. vm_compute in He. discriminate He.
Defined.

(** ** The time slept *)

Lemma sleepTotal_app (l1 l2 : list Action) :
  sleepTotal (l1 ++ l2) = sleepTotal l1 + sleepTotal l2.
Proof.
  induction l1 as [|a l1 IH]; simpl; [reflexivity |].
  destruct a; lia.
Qed.

Lemma sleepTotal_playTick eh song t : sleepTotal (playTick eh song t) = 0.
Proof.
  rewrite playTick_filter.
  induction (filter (fun n => Tick n = t) (sNotes song)) as [|n l IH];
    [reflexivity | exact IH].
Qed.

Lemma sleepTotal_ticks durationOfTempo eh song a n :
  1 <= a ->
  sleepTotal (flat_map (tickActions durationOfTempo eh song) (ticks a n))
  = Z.of_nat n * tickDuration durationOfTempo song.
Proof.
  revert a. induction n as [|n IH]; intros a Ha; [reflexivity |].
  rewrite ticks_S. cbn [flat_map]. rewrite sleepTotal_app, IH by lia.
  unfold tickActions. rewrite sleepTotal_app, sleepTotal_playTick.
  assert ((0 <? a) = true) as -> by lia. simpl. lia.
Qed.

(** The sleeps of a run add up to one tick's duration for every tick after
    tick 0 the loop went through: a run that is not cancelled sleeps for the
    song's length times the tick's duration. *)
Theorem playSong_sleep_total durationOfTempo env eh song fuel w ex acts w' :
  sLength song < maxInt ->
  playSong durationOfTempo env eh song fuel w = Some (ex, acts, w') ->
  sleepTotal acts
  = Z.max 0 (lastTick song ex) * tickDuration durationOfTempo song.
Proof.
  intros Hlen Hrun.
  destruct (playSong_actions _ _ _ _ _ _ _ _ _ Hlen Hrun) as [-> _].
  rewrite sleepTotal_app. simpl (sleepTotal [finished eh]). rewrite Z.add_0_r.
  destruct (Z.to_nat (lastTick song ex + 1)) as [|n] eqn:Hn.
  - simpl. lia.
  - rewrite ticks_S. cbn [flat_map].
    rewrite sleepTotal_app, sleepTotal_ticks by lia.
    unfold tickActions. simpl (0 <? 0). rewrite app_nil_l, sleepTotal_playTick.
    replace (Z.max 0 (lastTick song ex)) with (Z.of_nat n) by lia. lia.
Qed.

Lemma playSong_sleep_total_witness :
  sleepTotal (flat_map (tickActions PlaySamples.exactDuration PlaySamples.listener
                                    PlaySamples.song005) (ticks 0 6)
              ++ [finished PlaySamples.listener])
  = Z.max 0 5 * 50000000.
Proof.
  apply (playSong_sleep_total PlaySamples.exactDuration PlaySamples.quiet
           PlaySamples.listener PlaySamples.song005 10 PlaySamples.idle
           Finished _ (mkWorld ∅ {[1%positive := false]})).
  - vm_compute. reflexivity.
  - vm_compute. reflexivity.
Defined.

(** * The decoder and the scheduler together *)

Lemma decoded_Length_range file data :
  ParseNBS file = (Some data, None) -> 0 <= Length data < 65536.
Proof.
  intros Hok. apply ParseNBS_Some in Hok as [rest Hrun].
  apply parse_Ok in Hrun as (h & body & notes & Hh & _ & ->).
  apply parseHeader_ranges in Hh as (Hlen & _). simpl.
  apply inferLength_range, Hlen.
Qed.

(** Playing a decoded song always comes to an end: its length is a uint16,
    so the loop is left, by a signal or after the last tick, within 65536
    iterations, whatever the other goroutines do. *)
Theorem decoded_playback_returns durationOfTempo env eh file data w :
  ParseNBS file = (Some data, None) ->
  0 <= sLength (nbsConverter data) <= 65535 /\
  exists ex acts w',
    playSong durationOfTempo env eh (nbsConverter data)
             (S (Z.to_nat (sLength (nbsConverter data) + 1))) w
    = Some (ex, acts, w').
Proof.
  intros Hok. pose proof (decoded_Length_range _ _ Hok) as Hlen.
  split; [simpl; lia |].
  unfold playSong. destruct (startSession eh w) as [stopChan w1].
  destruct (tickIter_returns durationOfTempo env eh (nbsConverter data)
              (S (Z.to_nat (sLength (nbsConverter data) + 1))) stopChan 0 w1)
    as [[[ex acts] w2] Hrun].
  - lia.
  - simpl. unfold maxInt. lia.
  - lia.
  - change (Z.max 0 (0 - 1)) with 0 in Hrun. rewrite Hrun. eauto.
Qed.

Lemma decoded_playback_returns_witness :
  exists ex acts w',
    playSong PlaySamples.exactDuration PlaySamples.quiet PlaySamples.listener
             (nbsConverter (Samples.dataOf Samples.threeTicks))
             (S (Z.to_nat (sLength (nbsConverter (Samples.dataOf Samples.threeTicks)) + 1)))
             PlaySamples.idle
    = Some (ex, acts, w').
Proof.
  apply (decoded_playback_returns PlaySamples.exactDuration PlaySamples.quiet
           PlaySamples.listener Samples.threeTicks).
  vm_compute. reflexivity.
Defined.

Lemma decoded_ticks_nonneg file data :
  Z.of_nat (length file) <= 2 ^ 47 ->
  ParseNBS file = (Some data, None) ->
  Forall (fun n => 0 <= nTick n) (Notess data).
Proof.
  intros Hsize Hok. apply ParseNBS_Some in Hok as [rest Hrun].
  apply parse_Ok in Hrun as (h & body & notes & Hh & Hloop & ->).
  apply parseHeader_shorter in Hh. simpl Notess.
  assert (Hboth : StronglySorted tickLayerOrder notes /\
                  Forall (fun n => 0 <= nTick n /\ 0 <= nLayer n) notes).
  { revert Hloop. apply tickLoop_order.
    - lia.
    - unfold maxInt. lia.
    - constructor.
    - constructor. }
  eapply Forall_impl; [exact (proj2 Hboth) |]. intros n Hn. apply Hn.
Qed.

Lemma decoded_keys file data :
  ParseNBS file = (Some data, None) ->
  Forall (fun n => 1 <= nKey n < 256) (Notess data).
Proof.
  intros Hok. apply ParseNBS_Some in Hok as [rest Hrun].
  apply parse_Ok in Hrun as (h & body & notes & _ & Hloop & ->).
  simpl Notess. revert Hloop. apply tickLoop_Forall_fields; [| constructor].
  intros. simpl. assumption.
Qed.

(** A file with declared length 0 whose greatest tick is below 65536 (and
    of at most 2^47 bytes) plays in full: in a run that is not cancelled
    every decoded note is played, with the pitch "key minus 33", which for
    a decoded key is between -32 and 222. *)
Theorem decoded_song_plays_in_full durationOfTempo env eh file h body data
    fuel w acts w' note :
  Z.of_nat (length file) <= 2 ^ 47 ->
  parseHeader file = Ok (h, body) ->
  hLength h = 0 ->
  ParseNBS file = (Some data, None) ->
  maxTick (Notess data) < 65536 ->
  playSong durationOfTempo env eh (nbsConverter data) fuel w
  = Some (Finished, acts, w') ->
  In note (sNotes (nbsConverter data)) ->
  In (Printf note (Key note - 33)) acts /\ -32 <= Key note - 33 <= 222.
Proof.
  intros Hsize Hh Hz Hok Hmax Hrun Hnote.
  pose proof (decoded_Length_range _ _ Hok) as Hlen.
  pose proof (decoded_ticks_nonneg _ _ Hsize Hok) as Hticks.
  pose proof (decoded_keys _ _ Hok) as Hkeys.
  pose proof (ParseNBS_header _ _ _ _ Hh Hok) as Hinf.
  assert (Hnm : sLength (nbsConverter data) < maxInt)
    by (simpl; unfold maxInt; lia).
  destruct (playSong_actions _ _ _ _ _ _ _ _ _ Hnm Hrun) as [-> _].
  simpl in Hnote. apply in_map_iff in Hnote as (n0 & <- & Hn0).
  assert (Hne : Notess data <> []) by (intros Hnil; rewrite Hnil in Hn0; destruct Hn0).
  destruct (maxTick_spec _ Hne) as [Hall (nmax & Hin & Hmaxeq)].
  rewrite Forall_forall in Hticks, Hkeys, Hall.
  apply list_elem_of_In in Hn0.
  pose proof (Hticks _ Hn0) as Ht0. pose proof (Hkeys _ Hn0) as Hk0.
  pose proof (Hall _ Hn0) as Hle. pose proof (Hticks _ Hin) as Htmax.
  rewrite Hz, (inferLength_zero _ Hne), uint16_id in Hinf by lia.
  simpl Key. split; [| lia].
  apply in_or_app. left. apply Printf_in_ticks. split_and!.
  - apply elem_of_ticks. simpl. lia.
  - simpl. apply in_map_iff. exists n0. split; [reflexivity |].
    apply list_elem_of_In, Hn0.
  - simpl. unfold pitchKey. rewrite int_id; [reflexivity |].
    unfold minInt, maxInt. lia.
Qed.

Lemma decoded_song_plays_in_full_witness :
  In (Printf (mkNote 12 0 0 42 100 100 0) (42 - 33))
     (flat_map (tickActions PlaySamples.exactDuration PlaySamples.listener
                            (nbsConverter (Samples.dataOf Samples.threeTicks)))
               (ticks 0 13)
      ++ [finished PlaySamples.listener]).
Proof.
  apply (decoded_song_plays_in_full PlaySamples.exactDuration PlaySamples.quiet
           PlaySamples.listener Samples.threeTicks (mkHeader 0 3 1 1000)
           (drop 57 Samples.threeTicks) (Samples.dataOf Samples.threeTicks)
           20 PlaySamples.idle _ (mkWorld ∅ {[1%positive := false]})
           (mkNote 12 0 0 42 100 100 0)).
  - vm_compute. discriminate.
  - vm_compute. reflexivity.
  - reflexivity.
  - vm_compute. reflexivity.
  - vm_compute. reflexivity.
  - vm_compute. reflexivity.
  - vm_compute. tauto.
Defined.

(** * Loading by name *)

Lemma HasSuffix_app s suffix : HasSuffix (s ++ suffix) suffix = true.
Proof.
  unfold HasSuffix. apply andb_true_intro. split.
  - apply Nat.leb_le. rewrite length_app. lia.
  - apply bool_decide_eq_true.
    replace (length (s ++ suffix) - length suffix)%nat with (length s)
      by (rewrite length_app; lia).
    apply drop_app_length.
Qed.

Lemma TrimSuffix_app s suffix : TrimSuffix (s ++ suffix) suffix = s.
Proof.
  unfold TrimSuffix. rewrite HasSuffix_app.
  replace (length (s ++ suffix) - length suffix)%nat with (length s)
    by (rewrite length_app; lia).
  apply take_app_length.
Qed.

Lemma TrimSuffix_none s suffix : HasSuffix s suffix = false -> TrimSuffix s suffix = s.
Proof. intros Hno. unfold TrimSuffix. rewrite Hno. reflexivity. Qed.

Lemma HasSuffix_true s suffix :
  HasSuffix s suffix = true -> exists p, s = p ++ suffix.
Proof.
  unfold HasSuffix. intros Hs. apply andb_prop in Hs as [_ Hd].
  apply bool_decide_eq_true in Hd.
  exists (take (length s - length suffix) s).
  pose proof (take_drop (length s - length suffix) s) as Hs.
  rewrite Hd in Hs. symmetry. exact Hs.
Qed.

Lemma HasSuffix_last a (b : byte) t c :
  b <> c -> HasSuffix (a ++ [b]) (t ++ [c]) = false.
Proof.
  intros Hne. destruct (HasSuffix (a ++ [b]) (t ++ [c])) eqn:Hs; [| reflexivity].
  apply HasSuffix_true in Hs as [p Hp]. rewrite app_assoc in Hp.
  apply app_inj_tail in Hp as [_ Hbc]. contradiction.
Qed.

(** A name that ends in ".nbs" does not end in ".json", and the other way
    round. *)
Lemma nbs_not_json s : HasSuffix (s ++ gostring ".nbs") (gostring ".json") = false.
Proof.
  change (gostring ".nbs") with (gostring ".nb" ++ [("s")%byte]).
  change (gostring ".json") with (gostring ".jso" ++ [("n")%byte]).
  rewrite app_assoc. apply HasSuffix_last. discriminate.
Qed.

(** For a name that ends in neither ".json" nor ".nbs", asking for the
    name, the name with ".nbs", the name with ".json" or the name with
    ".nbs.json" loads the same files: each is cut down to the name. *)
Theorem flexSongLoader_extensions Join Stat contents Unmarshal base :
  HasSuffix base (gostring ".json") = false ->
  HasSuffix base (gostring ".nbs") = false ->
  let load := flexSongLoader Join Stat contents Unmarshal in
  let fromBase := loadBase Join Stat contents Unmarshal base in
  load base = fromBase /\
  load (base ++ gostring ".nbs") = fromBase /\
  load (base ++ gostring ".json") = fromBase /\
  load (base ++ gostring ".nbs" ++ gostring ".json") = fromBase.
Proof.
  intros Hj Hn load fromBase. unfold load, fromBase, flexSongLoader.
  split_and!.
  - rewrite (TrimSuffix_none _ _ Hj), (TrimSuffix_none _ _ Hn). reflexivity.
  - rewrite (TrimSuffix_none _ _ (nbs_not_json base)), TrimSuffix_app. reflexivity.
  - rewrite TrimSuffix_app, (TrimSuffix_none _ _ Hn). reflexivity.
  - rewrite app_assoc, TrimSuffix_app, TrimSuffix_app. reflexivity.
Qed.

Lemma flexSongLoader_extensions_witness :
  flexSongLoader (fun d f => d ++ gostring "/" ++ f) (fun _ => false)
                 (fun _ => None) (fun _ => None)
                 (gostring "song.nbs")
  = loadBase (fun d f => d ++ gostring "/" ++ f) (fun _ => false)
             (fun _ => None) (fun _ => None)
             (gostring "song").
Proof.
  apply (flexSongLoader_extensions (fun d f => d ++ gostring "/" ++ f)
           (fun _ => false) (fun _ => None) (fun _ => None) (gostring "song")).
  - vm_compute. reflexivity.
  - vm_compute. reflexivity.
Defined.

(** The name is cut once, ".json" before ".nbs": asking for a name with
    ".json.nbs" loads the files of the name with ".json" (so ".json.nbs"
    and ".json.json"), and asking for a name with ".nbs.nbs" those of the
    name with ".nbs". *)
Theorem flexSongLoader_cuts_once Join Stat contents Unmarshal name :
  flexSongLoader Join Stat contents Unmarshal
    (name ++ gostring ".json" ++ gostring ".nbs")
  = loadBase Join Stat contents Unmarshal (name ++ gostring ".json") /\
  flexSongLoader Join Stat contents Unmarshal
    (name ++ gostring ".nbs" ++ gostring ".nbs")
  = loadBase Join Stat contents Unmarshal (name ++ gostring ".nbs").
Proof.
  unfold flexSongLoader. split.
  - rewrite app_assoc.
    rewrite (TrimSuffix_none _ _ (nbs_not_json (name ++ gostring ".json"))).
    rewrite TrimSuffix_app. reflexivity.
  - rewrite app_assoc.
    rewrite (TrimSuffix_none _ _ (nbs_not_json (name ++ gostring ".nbs"))).
    rewrite TrimSuffix_app. reflexivity.
Qed.

(** * Signals *)

(** The stop channel has one slot: a second signal before the poll changes
    nothing, one poll takes the signal and empties the slot, and the next
    poll finds none.  A channel that was never made, or whose slot is empty,
    gives no signal and is left as it was. *)
Theorem signals_coalesce ch w :
  trySend ch (trySend ch w) = trySend ch w /\
  fst (tryRecv ch (trySend ch w)) = true /\
  fst (tryRecv ch (snd (tryRecv ch (trySend ch (trySend ch w))))) = false /\
  (chans w !! ch <> Some true -> tryRecv ch w = (false, w)) /\
  (forall ch', ch' <> ch ->
               chans (snd (tryRecv ch (trySend ch w))) !! ch' = chans w !! ch').
Proof.
  assert (Hsend : trySend ch (trySend ch w) = trySend ch w).
  { unfold trySend. simpl. rewrite insert_insert_eq. reflexivity. }
  assert (Hrecv : tryRecv ch (trySend ch w)
                  = (true, mkWorld (stopPlayer w) (<[ch := false]> (chans w)))).
  { unfold tryRecv, trySend. simpl. rewrite lookup_insert_eq, insert_insert_eq.
    reflexivity. }
  split_and!.
  - exact Hsend.
  - rewrite Hrecv. reflexivity.
  - rewrite Hsend, Hrecv. unfold tryRecv. simpl. rewrite lookup_insert_eq. reflexivity.
  - intros Hno. unfold tryRecv. destruct (chans w !! ch) as [[|]|]; congruence.
  - intros ch' Hne. rewrite Hrecv. simpl. apply lookup_insert_ne. congruence.
Qed.

(** After a run has returned, however it was left, [stopSong] for the
    listener reports false and changes nothing. *)
Theorem stop_after_the_end durationOfTempo env eh song fuel w ex acts w' :
  playSong durationOfTempo env eh song fuel w = Some (ex, acts, w') ->
  stopSong eh w' = (false, w') /\
  last acts = Some (finished eh).
Proof.
  unfold playSong. destruct (startSession eh w) as [stopChan w1].
  destruct (tickIter durationOfTempo env eh song fuel stopChan 0 0 w1)
    as [[[ex1 acts1] w2]|]; [| discriminate].
  intros [= <- <- <-]. split.
  - unfold stopSong. simpl. rewrite lookup_delete_eq. reflexivity.
  - apply last_snoc.
Qed.

Lemma stop_after_the_end_witness :
  stopSong PlaySamples.listener (mkWorld ∅ {[1%positive := false]})
  = (false, mkWorld ∅ {[1%positive := false]}).
Proof.
  apply (stop_after_the_end PlaySamples.exactDuration PlaySamples.quiet
           PlaySamples.listener PlaySamples.song005 10 PlaySamples.idle
           Finished
           (flat_map (tickActions PlaySamples.exactDuration PlaySamples.listener
                                  PlaySamples.song005) (ticks 0 6)
            ++ [finished PlaySamples.listener])
           (mkWorld ∅ {[1%positive := false]})).
  vm_compute. reflexivity.
Defined.
